(** * rtclite: the WebRTC signaling rendezvous of [app/web/rtc/notify.py]

    A shallow embedding of the module's [Space] class, of its process-wide
    [spaces] table and of the four hooks it hands to the WebSocket
    transport ([onhandshake], [onopen], [onmessage], [onclose]), followed by
    the properties of the hooks.

    The transport ([std.ietf.rfc6455]) and the [json] and [logging] modules
    are collaborators of the module, not part of it: JSON decoding and
    encoding and the outcome of a socket write are section variables, and
    every call the hooks make on a collaborator is recorded in a trace. *)

From stdpp Require Import base option list strings gmap pretty.
From Stdlib Require Import ZArith Ascii.

Set Warnings "-register-all".

(** ** Values *)

(** What [json.loads] yields and [json.dumps] accepts.  Objects are Python
    dictionaries, hence finite maps. *)
Inductive json :=
  | JNull
  | JBool (b : bool)
  | JNum (n : Z)
  | JStr (s : string)
  | JArr (items : list json)
  | JObj (members : gmap string json).

(** A request is the transport's per-connection handler object.  [rid]
    stands for the identity of the object: the class defines no comparison of
    its own, so [==] and [!=] compare identities and every request is true in
    a condition. *)
Record request := Request { rid : nat; path : string }.

#[global] Instance request_eq_dec : EqDecision request.
Proof. solve_decision. Defined.

Inductive exn :=
  | HTTPError (status : string)
  | ValueError
  | TypeError
  | KeyError (key : string)
  | SocketError (errno : nat).

Inductive level := DEBUG | INFO | ERROR.

Inductive record :=
  | creating_space (p : string)
  | space_is_full
  | onmessage_record (r : request) (message : string).

(** Calls on the collaborators, oldest first.  A [send_message] call is
    recorded with its outcome: [None] when the write went through, the
    exception when it raised. *)
Inductive event :=
  | Log (lv : level) (rec : record)
  | SendMessage (to : request) (text : string) (outcome : option exn)
  | CloseConn (r : request).

(** ** class Space *)

Module Space.

Record t := Make {
  path : string;
  requests : list request;
  pending : list (request * json)
}.

(** [__init__].  The log line of the constructor is emitted where the
    hooks build a space, see [new_space]; the one of [__del__] is left out,
    the moment a finalizer runs being the runtime's choice. *)
Definition init (path : string) : t := Make path [] [].

Definition is_full (self : t) : bool := bool_decide (2 ≤ length (requests self)).

Definition is_empty (self : t) : bool := bool_decide (length (requests self) = 0).

Definition add (self : t) (request : request) : t :=
  Make (path self) (requests self ++ [request]) (pending self).

(** [list.remove]: drops the first occurrence; the [ValueError] of a
    missing element is the one [remove] catches, so a list without the
    element is returned as it is. *)
Fixpoint list_remove (x : request) (l : list request) : list request :=
  match l with
  | [] => []
  | y :: l' => if decide (y = x) then l' else y :: list_remove x l'
  end.

Definition remove (self : t) (request : request) : t :=
  Make (path self)
       (list_remove request (requests self))
       (filter (λ rd, rd.1 ≠ request) (pending self)).

(** [result and result[0] or None], every request being true. *)
Definition get_other (self : t) (request : request) : option _ :=
  head (filter (λ x, x ≠ request) (requests self)).

Definition set_pending (self : t) (q : list (request * json)) : t :=
  Make (path self) (requests self) q.

End Space.

(** ** The module state *)

Record world := World {
  spaces : gmap string Space.t;
  trace : list event
}.

Definition boot : world := World ∅ [].

(** ** Computations that may raise *)

Definition M (A : Type) : Type := world → (A + exn) * world.

Definition ret {A} (a : A) : M A := λ w, (inl a, w).

Definition raise {A} (e : exn) : M A := λ w, (inr e, w).

Definition bind {A B} (m : M A) (k : A → M B) : M B :=
  λ w, match m w with
       | (inl a, w') => k a w'
       | (inr e, w') => (inr e, w')
       end.

(** [try: m  except: pass] *)
Definition try_pass (m : M unit) : M unit :=
  λ w, match m w with
       | (inl a, w') => (inl a, w')
       | (inr _, w') => (inl (), w')
       end.

#[global] Instance M_ret : MRet M := @ret.
#[global] Instance M_bind : MBind M := λ A B k m, bind m k.

Definition get_spaces : M (gmap string Space.t) := λ w, (inl (spaces w), w).

(** [spaces[p] = space], and likewise every mutation of the space object
    that [spaces[p]] refers to. *)
Definition store (p : string) (space : Space.t) : M unit :=
  λ w, (inl (), World (<[p := space]> (spaces w)) (trace w)).

(** [del spaces[p]] *)
Definition del (p : string) : M unit :=
  λ w, (inl (), World (delete p (spaces w)) (trace w)).

Definition emit (e : event) : M unit :=
  λ w, (inl (), World (spaces w) (trace w ++ [e])).

Definition log (lv : level) (rec : record) : M unit := emit (Log lv rec).

(** [r.close()] on a transport whose [close] returns at once: it neither
    raises nor runs a hook before it returns.  What [onclose] does when
    [close] does either is in [onclose_on]. *)
Definition close (r : request) : M unit := emit (CloseConn r).

Fixpoint for_each {A} (l : list A) (body : A → M unit) : M unit :=
  match l with
  | [] => ret ()
  | x :: l' => body x;; for_each l' body
  end.

(** [data[key]] on a decoded value. *)
Definition getitem (data : json) (key : string) : M json :=
  match data with
  | JObj d => match d !! key with
              | Some v => ret v
              | None => raise (KeyError key)
              end
  | _ => raise TypeError
  end.

(** [key in data], reached only once [data['method']] has gone through. *)
Definition contains (data : json) (key : string) : bool :=
  match data with
  | JObj d => bool_decide (is_Some (d !! key))
  | _ => false
  end.

(** [v == 'text'] for a decoded value [v]. *)
Definition str_eq (v : json) (text : string) : bool :=
  match v with
  | JStr s => bool_decide (s = text)
  | _ => false
  end.

Definition configuration : json :=
  JObj {[ "iceServers" := JArr [JObj {[ "url" := JStr "stun:stun.l.google.com:19302" ]}] ]}.

Definition notify (data : json) : json :=
  JObj (<[ "method" := JStr "NOTIFY" ]> {[ "data" := data ]}).

(** The dictionary [onmessage] answers a GET with, [token] being the
    request's [msg_id] when it has one. *)
Definition response (token : option json) : gmap string json :=
  let response : gmap string json :=
    <[ "code" := JStr "success" ]>
      {[ "result" := JObj {[ "configuration" := configuration ]} ]} in
  match token with
  | Some v => <[ "msg_id" := v ]> response
  | None => response
  end.

(** ** The hooks *)

Section Hooks.

(** [json.loads] ([None]: it raises [ValueError]) and [json.dumps]. *)
Variable loads : string → option json.
Variable dumps : json → string.

(** The transport's answer to a write on a connection, given everything
    that happened before: [None] when the write goes through, the
    exception otherwise. *)
Variable socket : list event → request → string → option exn.

Definition json_loads (message : string) : M json :=
  match loads message with
  | Some v => ret v
  | None => raise ValueError
  end.

Definition send_message (r : request) (text : string) : M unit :=
  λ w, let outcome := socket (trace w) r text in
       (match outcome with None => inl () | Some e => inr e end,
        World (spaces w) (trace w ++ [SendMessage r text outcome])).

(** [spaces[p] = Space(p)] *)
Definition new_space (p : string) : M Space.t :=
  log INFO (creating_space p);;
  store p (Space.init p);;
  ret (Space.init p).

Definition onhandshake (request : request) (path : string)
    (headers : list (string * string)) : M unit :=
  spaces ← get_spaces;
  match spaces !! path with
  | Some space =>
      if Space.is_full space then
        log ERROR space_is_full;;
        raise (HTTPError "400 Bad Request - Space Full")
      else ret ()
  | None => ret ()
  end.

Definition onopen (request : request) : M unit :=
  spaces ← get_spaces;
  space ← match spaces !! path request with
          | Some space => ret space
          | None => new_space (path request)
          end;
  let space := Space.add space request in
  store (path request) space;;
  for_each (Space.pending space)
    (λ '(ignore, data), send_message request (dumps (notify data)));;
  store (path request) (Space.set_pending space []).

Definition onclose (request : request) : M unit :=
  spaces ← get_spaces;
  match spaces !! path request with
  | Some space =>
      let other := Space.get_other space request in
      let space := Space.remove space request in
      store (path request) space;;
      space ← match other with
              | Some other =>
                  let space := Space.remove space other in
                  store (path request) space;;
                  close other;;
                  ret space
              | None => ret space
              end;
      if Space.is_empty space then del (path request) else ret ()
  | None => ret ()
  end.

Definition onmessage (request : request) (message : string) : M unit :=
  log DEBUG (onmessage_record request message);;
  data ← json_loads message;
  method ← getitem data "method";
  is_get ← (if str_eq method "GET"
            then resource ← getitem data "resource";
                 ret (str_eq resource "/peerconnection")
            else ret false);
  if is_get : bool then
    msg_id ← (if contains data "msg_id"
              then v ← getitem data "msg_id"; ret (Some v)
              else ret None);
    send_message request (dumps (JObj (response msg_id)))
  else
    method ← getitem data "method";
    if str_eq method "NOTIFY" then
      spaces ← get_spaces;
      space ← match spaces !! path request with
              | Some space => ret space
              | None => new_space (path request)
              end;
      match Space.get_other space request with
      | Some other =>
          try_pass (payload ← getitem data "data";
                    send_message other (dumps (notify payload)))
      | None =>
          payload ← getitem data "data";
          store (path request)
                (Space.set_pending space (Space.pending space ++ [(request, payload)]))
      end
    else ret ().

(** The trace of a flush of the queue [q] to [r] in which every write goes
    through, and the condition on the transport for that, the flush
    starting after the history [h]. *)
Definition flushed (r : request) (q : list (request * json)) : list event :=
  map (λ '(ignore, data), SendMessage r (dumps (notify data)) None) q.

Definition takes (h : list event) (r : request) (q : list (request * json)) : Prop :=
  ∀ i x, q !! i = Some x →
    socket (h ++ flushed r (take i q)) r (dumps (notify x.2)) = None.

(** ** Sequences of hook invocations *)

Inductive call :=
  | Handshake (r : request)
  | Open (r : request)
  | Message (r : request) (message : string)
  | Close (r : request).

Definition hook (c : call) : M unit :=
  match c with
  | Handshake r => onhandshake r (path r) []
  | Open r => onopen r
  | Message r message => onmessage r message
  | Close r => onclose r
  end.

(** The state a hook leaves behind, whether it returned or raised. *)
Definition step (c : call) (w : world) : world := (hook c w).2.

Definition run (cs : list call) (w : world) : world :=
  foldl (λ w c, step c w) w cs.

End Hooks.

(** The outcome of every hook of a sequence, in order. *)
Fixpoint outcomes (loads : string → option json) (dumps : json → string)
    (socket : list event → request → string → option exn)
    (cs : list call) (w : world) : list (unit + exn) :=
  match cs with
  | [] => []
  | c :: cs' =>
      (hook loads dumps socket c w).1
        :: outcomes loads dumps socket cs' (step loads dumps socket c w)
  end.

(** A decoded NOTIFY has its [data] member; everything else passes. *)
Definition carries_data (v : option json) : bool :=
  match v with
  | Some (JObj d) =>
      match d !! "method" with
      | Some method =>
          if str_eq method "NOTIFY" then bool_decide (is_Some (d !! "data")) else true
      | None => true
      end
  | _ => true
  end.


(** Admission in one piece: the handshake of a connection and, when it is
    not refused, its open, with no other hook in between. *)
Inductive visit :=
  | Arrive (r : request)
  | Tell (r : request) (message : string)
  | Leave (r : request).

Definition attend (loads : string → option json) (dumps : json → string)
    (socket : list event → request → string → option exn)
    (v : visit) (w : world) : world :=
  match v with
  | Arrive r =>
      match onhandshake r (path r) [] w with
      | (inl _, w') => step loads dumps socket (Open r) w'
      | (inr _, w') => w'
      end
  | Tell r message => step loads dumps socket (Message r message) w
  | Leave r => step loads dumps socket (Close r) w
  end.

(** The part of the transport contract about admission: a connection is
    opened only after its own handshake. *)
Fixpoint handshake_before_open (seen : list request) (cs : list call) : bool :=
  match cs with
  | [] => true
  | Handshake r :: cs' => handshake_before_open (r :: seen) cs'
  | Open r :: cs' => bool_decide (r ∈ seen) && handshake_before_open seen cs'
  | _ :: cs' => handshake_before_open seen cs'
  end.

(** The text decodes to a NOTIFY that carries [payload]. *)
Definition is_notify (loads : string → option json) (text : string) (payload : json) : Prop :=
  ∃ d, loads text = Some (JObj d) ∧
       d !! "method" = Some (JStr "NOTIFY") ∧
       d !! "data" = Some payload.


(** Every space of the table has at most two members. *)
Definition bounded (w : world) : Prop :=
  map_Forall (λ _ space, length (Space.requests space) ≤ 2) (spaces w).

(** The members of the space are at most [r] and one peer of it. *)
Definition at_most_a_pair (space : Space.t) (r : request) : bool :=
  match Space.requests space with
  | [] | [_] => true
  | [x; y] => bool_decide (x ≠ y) && bool_decide (x = r ∨ y = r)
  | _ => false
  end.

(** The space [onclose] leaves for the connection: the connection and the
    member it found as its peer are both taken out. *)
Definition closed (space : Space.t) (r : request) : Space.t :=
  match Space.get_other space r with
  | Some other => Space.remove (Space.remove space r) other
  | None => Space.remove space r
  end.

(** ** A codec and sockets to run the hooks on *)

(** JSON texts are written with ['] standing for the double quote. *)
Fixpoint js (s : string) : string :=
  match s with
  | EmptyString => EmptyString
  | String c s' => String (if decide (c = "'"%char) then "034"%char else c) (js s')
  end.

Definition join (l : list string) : string :=
  match l with
  | [] => ""
  | x :: l' => foldl (λ acc y, acc +:+ ", " +:+ y) x l'
  end.

(** An encoder in the style of [json.dumps], enough for texts without
    characters to escape. *)
Fixpoint encode (v : json) : string :=
  match v with
  | JNull => "null"
  | JBool b => if b then "true" else "false"
  | JNum n => pretty n
  | JStr s => js "'" +:+ s +:+ js "'"
  | JArr l => "[" +:+ join (map encode l) +:+ "]"
  | JObj d =>
      "{" +:+ join (map_fold (λ k x acc, acc ++ [js "'" +:+ k +:+ js "': " +:+ encode x]) [] d)
          +:+ "}"
  end.

Definition offer : json := JObj (<[ "type" := JStr "offer" ]> {[ "sdp" := JStr "X" ]}).
Definition candidate : json := JObj {[ "candidate" := JStr "c0" ]}.

(** What [json.loads] makes of the texts used below; it raises on any
    other text here. *)
Definition decoded : list (string * json) :=
  [ (js "{'method': 'NOTIFY', 'data': {'type': 'offer', 'sdp': 'X'}}",
     JObj (<[ "method" := JStr "NOTIFY" ]> {[ "data" := offer ]}));
    (js "{'method': 'NOTIFY', 'data': {'candidate': 'c0'}}",
     JObj (<[ "method" := JStr "NOTIFY" ]> {[ "data" := candidate ]}));
    (js "{'method': 'GET', 'msg_id': 1, 'resource': '/peerconnection'}",
     JObj (<[ "method" := JStr "GET" ]>
             (<[ "msg_id" := JNum 1 ]> {[ "resource" := JStr "/peerconnection" ]})));
    (js "{'method': 'GET', 'resource': '/peerconnection'}",
     JObj (<[ "method" := JStr "GET" ]> {[ "resource" := JStr "/peerconnection" ]}));
    (js "{'method': 'BYE'}", JObj {[ "method" := JStr "BYE" ]});
    (js "{'method': 'NOTIFY'}", JObj {[ "method" := JStr "NOTIFY" ]});
    (js "{}", JObj ∅) ].

Definition decode (text : string) : option json :=
  snd <$> (snd <$> list_find (λ entry, entry.1 = text) decoded).

(** A transport on which every write goes through. *)
Definition up : list event → request → string → option exn := λ _ _ _, None.

Definition written (r : request) (e : event) : bool :=
  match e with
  | SendMessage to _ None => bool_decide (to = r)
  | _ => false
  end.

(** A transport on which the socket of [r] takes [n] writes and then
    fails with EPIPE. *)
Definition breaks (r : request) (n : nat) : list event → request → string → option exn :=
  λ h to _,
    if bool_decide (to = r) && bool_decide (n ≤ length (filter (λ e, written r e = true) h))
    then Some (SocketError 32)
    else None.

Definition one : request := Request 1 "/call/42".
Definition two : request := Request 2 "/call/42".
Definition three : request := Request 3 "/call/42".
Definition four : request := Request 4 "/call/42".

Definition offer_text : string :=
  js "{'method': 'NOTIFY', 'data': {'type': 'offer', 'sdp': 'X'}}".
Definition candidate_text : string :=
  js "{'method': 'NOTIFY', 'data': {'candidate': 'c0'}}".


(** Two connections are paired and one of them closes; two new connections
    take the path before the close hook of the other one runs. *)
Definition late_close : list call :=
  [Handshake one; Open one; Handshake two; Open two; Close one;
   Handshake three; Open three; Handshake four; Open four].

(** The table with one space, on the path of the connections above. *)
Definition table (members : list request) (queue : list (request * json)) :
    gmap string Space.t :=
  {[ "/call/42" := Space.Make "/call/42" members queue ]}.

(** ** Further notions about the hooks *)

(** The connection a hook is invoked for. *)
Definition connection (c : call) : request :=
  match c with
  | Handshake r | Open r | Message r _ | Close r => r
  end.

(** Every space is filed under its own path, and its members and the
    senders of its queue are connections of that path. *)
Definition filed (w : world) : Prop :=
  map_Forall (λ p space,
                Space.path space = p ∧
                Forall (λ r, path r = p) (Space.requests space) ∧
                Forall (λ rd, path rd.1 = p) (Space.pending space)) (spaces w).

(** A space whose queue holds something has no two different members. *)
Definition unmixed (w : world) : Prop :=
  map_Forall (λ _ space,
                1 ≤ length (Space.pending space) →
                ∀ x y, x ∈ Space.requests space → y ∈ Space.requests space → x = y)
             (spaces w).

(** The space of the path of [r], a new one when the table has none. *)
Definition space_of (w : world) (r : request) : Space.t :=
  default (Space.init (path r)) (spaces w !! path r).

(** ** serve_forever *)

(** The part of [re] that the pattern of [serve_forever] uses: literals,
    alternation, sequence, a class of characters repeated between [min] and
    [max] times ([+] is one or more), and [$]. *)
Inductive regex :=
  | Lit (text : string)
  | Alt (r1 r2 : regex)
  | Seq (r1 r2 : regex)
  | Class (p : ascii → bool) (min : nat) (max : option nat)
  | Eos.

Fixpoint strip_prefix (prefix s : string) : option string :=
  match prefix, s with
  | EmptyString, _ => Some s
  | String a prefix', String b s' =>
      if decide (a = b) then strip_prefix prefix' s' else None
  | String _ _, EmptyString => None
  end.

Definition newline : string := String "010"%char EmptyString.

(** Some number of leading characters of the class, between [min] and
    [max], after which [k] accepts the rest. *)
Fixpoint repeat_class (p : ascii → bool) (min : nat) (max : option nat)
    (s : string) (k : string → bool) : bool :=
  (match min with 0 => k s | S _ => false end)
  || match s with
     | EmptyString => false
     | String c s' =>
         p c && negb (bool_decide (max = Some 0))
         && repeat_class p (pred min) (pred <$> max) s' k
     end.

(** The pattern matches at the start of [s], in some way after which [k]
    accepts what is left. *)
Fixpoint accepts (r : regex) (s : string) (k : string → bool) : bool :=
  match r with
  | Lit text => match strip_prefix text s with Some rest => k rest | None => false end
  | Alt r1 r2 => accepts r1 s k || accepts r2 s k
  | Seq r1 r2 => accepts r1 s (λ rest, accepts r2 rest k)
  | Class p min max => repeat_class p min max s k
  | Eos => (bool_decide (s = EmptyString) || bool_decide (s = newline)) && k s
  end.

(** [re.match]: a match at the start of the string, anything may follow. *)
Definition re_match (r : regex) (s : string) : bool := accepts r s (λ _, true).

Definition between (lo hi : nat) (c : ascii) : bool :=
  (lo <=? nat_of_ascii c)%nat && (nat_of_ascii c <=? hi)%nat.

(** [\d], on a byte string *)
Definition digit (c : ascii) : bool := between 48 57 c.

(** [[a-z0-9_\-\.]] *)
Definition host_char (c : ascii) : bool :=
  between 97 122 c || digit c
  || bool_decide (c = "_"%char) || bool_decide (c = "-"%char) || bool_decide (c = "."%char).

(** ['(tcp|tls):[a-z0-9_\-\.]+:\d{1,5}$'] *)
Definition listen_pattern : regex :=
  Seq (Alt (Lit "tcp") (Lit "tls"))
      (Seq (Lit ":")
           (Seq (Class host_char 1 None)
                (Seq (Lit ":")
                     (Seq (Class digit 1 (Some 5)) Eos)))).

(** The text before and after the first [sep], when there is one. *)
Fixpoint cut (sep : ascii) (s : string) : option (string * string) :=
  match s with
  | EmptyString => None
  | String c s' =>
      if decide (c = sep) then Some (EmptyString, s')
      else match cut sep s' with
           | Some (before, after) => Some (String c before, after)
           | None => None
           end
  end.

(** [s.split(sep, maxsplit)] for a separator of one character. *)
Fixpoint split (sep : ascii) (maxsplit : nat) (s : string) : list string :=
  match maxsplit with
  | 0 => [s]
  | S n =>
      match cut sep s with
      | Some (before, after) => before :: split sep n after
      | None => [s]
      end
  end.

Definition space_char (c : ascii) : bool := between 9 13 c || bool_decide (c = " "%char).

Fixpoint lstrip (s : string) : string :=
  match s with
  | String c s' => if space_char c then lstrip s' else s
  | EmptyString => EmptyString
  end.

Fixpoint rstrip (s : string) : string :=
  match s with
  | String c s' =>
      match rstrip s' with
      | EmptyString => if space_char c then EmptyString else String c EmptyString
      | rest => String c rest
      end
  | EmptyString => EmptyString
  end.

Fixpoint digits_value (acc : Z) (s : string) : option Z :=
  match s with
  | EmptyString => Some acc
  | String c s' =>
      if digit c then digits_value (10 * acc + Z.of_nat (nat_of_ascii c - 48)) s'
      else None
  end.

Definition unsigned (s : string) : option Z :=
  match s with
  | EmptyString => None
  | _ => digits_value 0 s
  end.

(** [int(s)] on a byte string: blanks around an optional sign and decimal
    digits; [None] stands for its [ValueError]. *)
Definition int (s : string) : option Z :=
  match rstrip (lstrip s) with
  | String "+" s' => unsigned s'
  | String "-" s' => Z.opp <$> unsigned s'
  | s' => unsigned s'
  end.

Record options := Options {
  listen : option string;
  certfile : option string;
  keyfile : option string;
  paths : list string;
  hosts : list string;
  origins : list string
}.

(** The keyword arguments [serve_forever] hands to the transport, the four
    hooks apart, which are always passed. *)
Record params := Params {
  hostport : string * Z;
  only_paths : option (list string);
  only_hosts : option (list string);
  only_origins : option (list string);
  tls_certfile : option string;
  tls_keyfile : option string
}.

Inductive startup_error :=
  | listen_is_no_string
  | invalid_listen_option (listen : string)
  | missing_certfile_or_keyfile
  | cannot_unpack (parts : list string)
  | invalid_literal_for_int (port : string).

(** [not x] for an option that is [None] or a string *)
Definition unset (x : option string) : bool :=
  match x with
  | None => true
  | Some s => bool_decide (s = EmptyString)
  end.

(** [l or None] *)
Definition or_None (l : list string) : option (list string) :=
  match l with
  | [] => None
  | _ => Some l
  end.

(** [serve_forever], up to the call of the transport: the error it raises,
    or the arguments of the call. *)
Definition serve_forever (options : options) : startup_error + params :=
  match listen options with
  | None => inl listen_is_no_string
  | Some listen =>
      if negb (re_match listen_pattern listen) then inl (invalid_listen_option listen)
      else
        match split ":" 2 listen with
        | [typ; host; port] =>
            if bool_decide (typ = "tls")
               && (unset (certfile options) || unset (keyfile options))
            then inl missing_certfile_or_keyfile
            else
              match int port with
              | Some n =>
                  let tls := bool_decide (typ = "tls") in
                  inr (Params (host, n)
                              (or_None (paths options))
                              (or_None (hosts options))
                              (or_None (origins options))
                              (if tls then certfile options else None)
                              (if tls then keyfile options else None))
              | None => inl (invalid_literal_for_int port)
              end
        | parts => inl (cannot_unpack parts)
        end
  end.

(** What a pattern matches: [matches r s rest] when [r] matches a prefix of
    [s] that leaves [rest]. *)
Fixpoint all_chars (p : ascii → bool) (s : string) : bool :=
  match s with
  | EmptyString => true
  | String c s' => p c && all_chars p s'
  end.

Fixpoint matches (r : regex) (s rest : string) : Prop :=
  match r with
  | Lit text => s = text +:+ rest
  | Alt r1 r2 => matches r1 s rest ∨ matches r2 s rest
  | Seq r1 r2 => ∃ mid, matches r1 s mid ∧ matches r2 mid rest
  | Class p min max =>
      ∃ pre, s = pre +:+ rest ∧ all_chars p pre = true ∧
             min ≤ String.length pre ∧
             ∀ n, max = Some n → String.length pre ≤ n
  | Eos => rest = s ∧ (s = EmptyString ∨ s = newline)
  end.

(** A listen option of the form TYPE:HOST:PORT. *)
Definition listen_shape (typ host port : string) : Prop :=
  (typ = "tcp" ∨ typ = "tls") ∧
  host ≠ EmptyString ∧ all_chars host_char host = true ∧
  1 ≤ String.length port ≤ 5 ∧ all_chars digit port = true.

(** ** More examples *)

(** What [json.loads] makes of two more texts, the table [decoded] apart. *)
Definition decode_more (text : string) : option json :=
  if decide (text = "[1, 2]") then Some (JArr [JNum 1; JNum 2])
  else if decide (text = js "{'method': 'GET'}") then Some (JObj {[ "method" := JStr "GET" ]})
  else decode text.

Definition elsewhere : request := Request 5 "/call/7".

(** ** [onclose] on a transport whose [close] does something *)

(** The table and the space objects it refers to, kept apart: [onclose]
    holds the object it looked up in a local variable across the call of
    [close], and reads it again afterwards, whatever has happened to the
    table in between. *)
Record memory := Memory {
  objects : gmap nat Space.t;
  names : gmap string nat;
  events : list event
}.

(** The state of the object behind a reference; objects are never freed. *)
Definition fetch (l : nat) (m : memory) : Space.t :=
  default (Space.init "") (objects m !! l).

Definition mutate (l : nat) (f : Space.t → Space.t) (m : memory) : memory :=
  Memory (<[l := f (fetch l m)]> (objects m)) (names m) (events m).

Definition record_event (e : event) (m : memory) : memory :=
  Memory (objects m) (names m) (events m ++ [e]).

(** [onclose], the [close] of the transport being [close_]: any change of
    the memory, with or without an exception at its end.  [del] raises
    [KeyError] on a path that is not in the table. *)
Definition onclose_on (close_ : request → memory → (unit + exn) * memory)
    (request : request) (m : memory) : (unit + exn) * memory :=
  match names m !! path request with
  | Some space =>
      let other := Space.get_other (fetch space m) request in
      let m := mutate space (λ self, Space.remove self request) m in
      let closing :=
        match other with
        | Some other =>
            let m := mutate space (λ self, Space.remove self other) m in
            close_ other m
        | None => (inl (), m)
        end in
      match closing with
      | (inl _, m) =>
          if Space.is_empty (fetch space m) then
            match names m !! path request with
            | Some _ =>
                (inl (), Memory (objects m) (delete (path request) (names m)) (events m))
            | None => (inr (KeyError (path request)), m)
            end
          else (inl (), m)
      | (inr e, m) => (inr e, m)
      end
  | None => (inl (), m)
  end.

(** A [close] that returns at once: the one [close] above stands for. *)
Definition quiet_close (o : request) (m : memory) : (unit + exn) * memory :=
  (inl (), record_event (CloseConn o) m).

(** A [close] that raises, the socket being gone. *)
Definition broken_close (e : exn) (o : request) (m : memory) : (unit + exn) * memory :=
  (inr e, record_event (CloseConn o) m).

(** A [close] that runs the close hook of the connection it closes before
    it returns, and so on for the [close] of that hook, [depth] times. *)
Fixpoint reentrant_close (depth : nat) (o : request) (m : memory) :
    (unit + exn) * memory :=
  match depth with
  | 0 => quiet_close o m
  | S depth' => onclose_on (reentrant_close depth') o (record_event (CloseConn o) m)
  end.

(** The table of spaces that a memory stands for. *)
Definition flat (m : memory) : world :=
  World (omap (λ l, objects m !! l) (names m)) (events m).

(** The reference [l] is in use, under the path [p] and no other. *)
Definition owned (m : memory) (p : string) (l : nat) : Prop :=
  names m !! p = Some l ∧ is_Some (objects m !! l) ∧
  ∀ p', names m !! p' = Some l → p' = p.

(** A pair on /call/42. *)
Definition paired : memory :=
  Memory {[ 0 := Space.Make "/call/42" [one; two] [] ]} {[ "/call/42" := 0 ]} [].

(** * Properties *)

(** Running a computation step by step. *)
Ltac exec :=
  cbv [mbind mret M_bind M_ret bind ret raise try_pass get_spaces store del
       emit log close new_space json_loads];
  simpl.

Ltac exec_send := unfold send_message; exec.

(** Every path through [onmessage]. *)
Ltac cases_of_onmessage :=
  unfold onmessage, getitem, contains; exec_send;
  repeat (case_match; exec_send; simplify_eq).

Section Properties.

Context (loads : string → option json) (dumps : json → string).
Context (socket : list event → request → string → option exn).

Lemma onclose_absent (w : world) (r : request) :
  spaces w !! path r = None → onclose r w = (inl (), w).
Proof.
  intros Hsp. unfold onclose. exec. by rewrite Hsp.
Qed.

Lemma onclose_present (w : world) (r : request) (space : Space.t) :
  spaces w !! path r = Some space →
  onclose r w =
    (inl (),
     World (if Space.is_empty (closed space r)
            then delete (path r) (spaces w)
            else <[path r := closed space r]> (spaces w))
           (trace w ++ match Space.get_other space r with
                       | Some other => [CloseConn other]
                       | None => []
                       end)).
Proof.
  intros Hsp. unfold onclose, closed. exec.
  rewrite Hsp. destruct (Space.get_other space r) as [other|]; simpl.
  - destruct (Space.is_empty _); exec;
      [by rewrite !delete_insert_eq | by rewrite insert_insert_eq].
  - rewrite app_nil_r. destruct (Space.is_empty _); exec;
      [by rewrite delete_insert_eq | done].
Qed.

Lemma get_other_first (space : Space.t) (r o : request) :
  o ≠ r → Space.requests space = [r; o] → Space.get_other space r = Some o.
Proof.
  intros Hne Hreq. unfold Space.get_other. rewrite Hreq.
  rewrite filter_cons_False, filter_cons_True by naive_solver. done.
Qed.

Lemma get_other_second (space : Space.t) (r o : request) :
  o ≠ r → Space.requests space = [o; r] → Space.get_other space r = Some o.
Proof.
  intros Hne Hreq. unfold Space.get_other. rewrite Hreq.
  rewrite filter_cons_True by naive_solver. done.
Qed.

Lemma get_other_alone (space : Space.t) (r : request) :
  Space.requests space = [r] → Space.get_other space r = None.
Proof.
  intros Hreq. unfold Space.get_other. rewrite Hreq.
  rewrite filter_cons_False by naive_solver. done.
Qed.

Lemma closed_pair (space : Space.t) (r o : request) :
  o ≠ r →
  Space.requests space = [r; o] ∨ Space.requests space = [o; r] →
  Space.get_other space r = Some o ∧ Space.requests (closed space r) = [].
Proof.
  intros Hne Hreq. unfold closed.
  destruct Hreq as [Hreq | Hreq].
  - rewrite (get_other_first _ _ _ Hne Hreq). split; [done|]. simpl. rewrite Hreq. simpl.
    repeat (case_decide; simplify_eq; simpl); done.
  - rewrite (get_other_second _ _ _ Hne Hreq). split; [done|]. simpl. rewrite Hreq. simpl.
    repeat (case_decide; simplify_eq; simpl); done.
Qed.

Lemma is_empty_true (space : Space.t) :
  Space.is_empty space = true ↔ Space.requests space = [].
Proof.
  unfold Space.is_empty. rewrite bool_decide_eq_true. apply length_zero_iff_nil.
Qed.

(** *** [onhandshake] *)

Lemma onhandshake_full (w : world) (r : request) (p : string)
    (headers : list (string * string)) (space : Space.t) :
  spaces w !! p = Some space →
  2 ≤ length (Space.requests space) →
  onhandshake r p headers w =
    (inr (HTTPError "400 Bad Request - Space Full"),
     World (spaces w) (trace w ++ [Log ERROR space_is_full])).
Proof.
  intros Hsp Hfull. unfold onhandshake. exec. rewrite Hsp.
  unfold Space.is_full. by rewrite bool_decide_eq_true_2.
Qed.

Lemma onhandshake_spaces (w : world) (r : request) (p : string)
    (headers : list (string * string)) :
  spaces (onhandshake r p headers w).2 = spaces w.
Proof.
  unfold onhandshake. exec. destruct (spaces w !! p) as [space|]; [|done].
  by destruct (Space.is_full space).
Qed.

Lemma onhandshake_admits (w : world) (r : request) (p : string)
    (headers : list (string * string)) :
  (onhandshake r p headers w).1 = inl () →
  onhandshake r p headers w = (inl (), w) ∧
  ∀ space, spaces w !! p = Some space → length (Space.requests space) < 2.
Proof.
  unfold onhandshake. exec. destruct (spaces w !! p) as [space|]; [|done].
  unfold Space.is_full. case_bool_decide; [done|].
  intros _. split; [done|]. intros ? [= <-]. lia.
Qed.

(** *** The flush of [onopen] *)

Lemma takes_cons (h : list event) (r s : request) (d : json) (q : list (request * json)) :
  takes dumps socket h r ((s, d) :: q) →
  socket h r (dumps (notify d)) = None ∧
  takes dumps socket (h ++ [SendMessage r (dumps (notify d)) None]) r q.
Proof.
  intros H. split.
  - specialize (H 0 (s, d) eq_refl). simpl in H. by rewrite app_nil_r in H.
  - intros i x Hx. specialize (H (S i) x Hx). simpl in H.
    by rewrite <- app_assoc.
Qed.

Lemma flush_ok (w : world) (r : request) (q : list (request * json)) :
  takes dumps socket (trace w) r q →
  for_each q (λ '(ignore, data), send_message socket r (dumps (notify data))) w =
    (inl (), World (spaces w) (trace w ++ flushed dumps r q)).
Proof.
  revert w. induction q as [|[s d] q IH]; intros w Hq; simpl.
  - exec_send. rewrite app_nil_r. by destruct w.
  - apply takes_cons in Hq as [Hd Hq]. exec_send. rewrite Hd.
    fold (@for_each (request * json)). rewrite IH by done. simpl.
    by rewrite <- app_assoc.
Qed.

Lemma flush_fail (w : world) (r s : request) (d : json) (e : exn)
    (q1 q2 : list (request * json)) :
  takes dumps socket (trace w) r q1 →
  socket (trace w ++ flushed dumps r q1) r (dumps (notify d)) = Some e →
  for_each (q1 ++ (s, d) :: q2)
      (λ '(ignore, data), send_message socket r (dumps (notify data))) w =
    (inr e,
     World (spaces w)
           (trace w ++ flushed dumps r q1 ++ [SendMessage r (dumps (notify d)) (Some e)])).
Proof.
  revert w. induction q1 as [|[s1 d1] q1 IH]; intros w Hq He; simpl.
  - simpl in He. rewrite app_nil_r in He. exec_send. by rewrite He.
  - apply takes_cons in Hq as [Hd Hq]. exec_send. rewrite Hd.
    fold (@for_each (request * json)). rewrite IH; simpl.
    + by rewrite <- app_assoc.
    + done.
    + simpl in He. by rewrite <- app_assoc.
Qed.

Lemma flush_spaces (w : world) (r : request) (q : list (request * json)) :
  spaces (for_each q (λ '(ignore, data), send_message socket r (dumps (notify data))) w).2
  = spaces w.
Proof.
  revert w. induction q as [|[s d] q IH]; intros w; simpl; [done|].
  exec_send. destruct (socket (trace w) r (dumps (notify d))); [done|].
  fold (@for_each (request * json)). by rewrite IH.
Qed.

(** *** [onopen] *)

Lemma onopen_absent (w : world) (r : request) :
  spaces w !! path r = None →
  onopen dumps socket r w =
    (inl (),
     World (<[path r := Space.Make (path r) [r] []]> (spaces w))
           (trace w ++ [Log INFO (creating_space (path r))])).
Proof.
  intros Hsp. unfold onopen. exec. rewrite Hsp. exec.
  by rewrite !insert_insert_eq.
Qed.

Lemma onopen_present (w : world) (r : request) (space : Space.t) :
  spaces w !! path r = Some space →
  takes dumps socket (trace w) r (Space.pending space) →
  onopen dumps socket r w =
    (inl (),
     World (<[path r := Space.Make (Space.path space) (Space.requests space ++ [r]) []]>
              (spaces w))
           (trace w ++ flushed dumps r (Space.pending space))).
Proof.
  intros Hsp Hq. unfold onopen. exec. rewrite Hsp. exec.
  rewrite flush_ok by done. simpl. by rewrite insert_insert_eq.
Qed.

Lemma onopen_raises (w : world) (r s : request) (space : Space.t) (d : json) (e : exn)
    (q1 q2 : list (request * json)) :
  spaces w !! path r = Some space →
  Space.pending space = q1 ++ (s, d) :: q2 →
  takes dumps socket (trace w) r q1 →
  socket (trace w ++ flushed dumps r q1) r (dumps (notify d)) = Some e →
  onopen dumps socket r w =
    (inr e,
     World (<[path r := Space.add space r]> (spaces w))
           (trace w ++ flushed dumps r q1 ++ [SendMessage r (dumps (notify d)) (Some e)])).
Proof.
  intros Hsp Hpend Hq He. unfold onopen. exec. rewrite Hsp. exec.
  rewrite Hpend. rewrite (flush_fail _ r s d e q1 q2) by done. done.
Qed.

Lemma onopen_spaces (w : world) (r : request) :
  let space := default (Space.init (path r)) (spaces w !! path r) in
  ∃ q, spaces (onopen dumps socket r w).2 =
       <[path r := Space.Make (Space.path space) (Space.requests space ++ [r]) q]>
         (spaces w).
Proof.
  unfold onopen. exec. destruct (spaces w !! path r) as [space|]; exec.
  - match goal with |- context [for_each ?q ?f ?w0] =>
      pose proof (flush_spaces w0 r q) as Hfl; destruct (for_each q f w0) as [[[]|e] w1]
    end; simpl in *.
    + exists []. by rewrite Hfl, insert_insert_eq.
    + exists (Space.pending space). by rewrite Hfl.
  - exists []. by rewrite !insert_insert_eq.
Qed.

(** *** [onmessage] *)

Lemma str_eq_true (v : json) (text : string) :
  str_eq v text = true ↔ v = JStr text.
Proof.
  destruct v; simpl; try (split; [discriminate | intros [=]]).
  rewrite bool_decide_eq_true. split; [by intros -> | by intros [=]].
Qed.

Lemma onmessage_trace (w : world) (r : request) (text : string) :
  ∃ evs, trace (onmessage loads dumps socket r text w).2 = trace w ++ evs ∧
         ∀ o, CloseConn o ∉ evs.
Proof.
  cases_of_onmessage; simpl; rewrite <- ?app_assoc; (eexists; split; [reflexivity|]);
    intros o Ho; simpl in Ho;
    repeat (apply elem_of_cons in Ho as [Ho | Ho]; [discriminate|]);
    by apply elem_of_nil in Ho.
Qed.

(** What [onmessage] does to the table of spaces: nothing, or one entry
    more in the queue of the space of the connection, or, for a NOTIFY
    without [data] on a path that has no space, a new space. *)
Lemma onmessage_spaces (w : world) (r : request) (text : string) :
  let space := default (Space.init (path r)) (spaces w !! path r) in
  let w' := (onmessage loads dumps socket r text w).2 in
  spaces w' = spaces w
  ∨ (∃ payload,
       spaces w' =
       <[path r := Space.set_pending space (Space.pending space ++ [(r, payload)])]>
         (spaces w))
  ∨ (spaces w !! path r = None ∧ carries_data (loads text) = false ∧
     spaces w' = <[path r := Space.init (path r)]> (spaces w)).
Proof.
  unfold carries_data. cases_of_onmessage; simpl; try (by left).
  all: first [ by right; left; eexists; rewrite ?insert_insert_eq
             | by right; right ].
Qed.

Lemma onmessage_undecodable (w : world) (r : request) (text : string) :
  loads text = None →
  onmessage loads dumps socket r text w =
    (inr ValueError, World (spaces w) (trace w ++ [Log DEBUG (onmessage_record r text)])).
Proof. intros H. cases_of_onmessage. done. Qed.

Lemma onmessage_no_method (w : world) (r : request) (text : string)
    (d : gmap string json) :
  loads text = Some (JObj d) →
  d !! "method" = None →
  onmessage loads dumps socket r text w =
    (inr (KeyError "method"),
     World (spaces w) (trace w ++ [Log DEBUG (onmessage_record r text)])).
Proof. intros H1 H2. cases_of_onmessage. done. Qed.

Lemma onmessage_ignores (w : world) (r : request) (text : string)
    (d : gmap string json) (method : json) :
  loads text = Some (JObj d) →
  d !! "method" = Some method →
  str_eq method "NOTIFY" = false →
  str_eq method "GET" = false
  ∨ (∃ resource, d !! "resource" = Some resource ∧
                 str_eq resource "/peerconnection" = false) →
  onmessage loads dumps socket r text w =
    (inl (), World (spaces w) (trace w ++ [Log DEBUG (onmessage_record r text)])).
Proof.
  intros H1 H2 H3 [H4 | (resource & H4 & H5)]; cases_of_onmessage; congruence.
Qed.

Lemma onmessage_get (w : world) (r : request) (text : string) (d : gmap string json) :
  loads text = Some (JObj d) →
  d !! "method" = Some (JStr "GET") →
  d !! "resource" = Some (JStr "/peerconnection") →
  let h := trace w ++ [Log DEBUG (onmessage_record r text)] in
  let reply := dumps (JObj (response (d !! "msg_id"))) in
  onmessage loads dumps socket r text w =
    (match socket h r reply with None => inl () | Some e => inr e end,
     World (spaces w) (h ++ [SendMessage r reply (socket h r reply)])).
Proof.
  intros H1 H2 H3. unfold onmessage, getitem, contains. exec. rewrite H1. exec.
  rewrite H2. exec. rewrite H3. exec.
  destruct (d !! "msg_id") as [token|] eqn:Htok.
  - rewrite bool_decide_eq_true_2 by done. done.
  - rewrite bool_decide_eq_false_2 by (by intros [? ?]). done.
Qed.

Lemma onmessage_relays (w : world) (r o : request) (space : Space.t) (text : string)
    (d : gmap string json) (payload : json) :
  spaces w !! path r = Some space →
  Space.get_other space r = Some o →
  loads text = Some (JObj d) →
  d !! "method" = Some (JStr "NOTIFY") →
  d !! "data" = Some payload →
  let h := trace w ++ [Log DEBUG (onmessage_record r text)] in
  let relayed := dumps (notify payload) in
  onmessage loads dumps socket r text w =
    (inl (), World (spaces w) (h ++ [SendMessage o relayed (socket h o relayed)])).
Proof.
  intros Hsp Ho H1 H2 H3. unfold onmessage, getitem, contains. exec. rewrite H1. exec.
  rewrite H2. exec. rewrite Hsp. exec. rewrite Ho. exec. rewrite H3. exec_send.
  by destruct (socket _ _ _).
Qed.

Lemma onmessage_queues (w : world) (r : request) (space : Space.t) (text : string)
    (d : gmap string json) (payload : json) :
  spaces w !! path r = Some space →
  Space.get_other space r = None →
  loads text = Some (JObj d) →
  d !! "method" = Some (JStr "NOTIFY") →
  d !! "data" = Some payload →
  onmessage loads dumps socket r text w =
    (inl (),
     World (<[path r := Space.set_pending space (Space.pending space ++ [(r, payload)])]>
              (spaces w))
           (trace w ++ [Log DEBUG (onmessage_record r text)])).
Proof.
  intros Hsp Ho H1 H2 H3. unfold onmessage, getitem, contains. exec. rewrite H1. exec.
  rewrite H2. exec. rewrite Hsp. exec. rewrite Ho. exec. rewrite H3. done.
Qed.

(** *** Runs of NOTIFY messages from a lone member *)

Lemma run_cons (c : call) (cs : list call) (w : world) :
  run loads dumps socket (c :: cs) w
  = run loads dumps socket cs (step loads dumps socket c w).
Proof. done. Qed.

Lemma set_pending_same (space : Space.t) :
  Space.set_pending space (Space.pending space) = space.
Proof. by destruct space. Qed.

Lemma lone_notifies (w : world) (r : request) (space : Space.t)
    (msgs : list (string * json)) :
  spaces w !! path r = Some space →
  Space.requests space = [r] →
  Forall (λ m, is_notify loads m.1 m.2) msgs →
  run loads dumps socket (map (λ m, Message r m.1) msgs) w =
    World (<[path r := Space.set_pending space
                         (Space.pending space ++ map (λ m, (r, m.2)) msgs)]> (spaces w))
          (trace w ++ map (λ m, Log DEBUG (onmessage_record r m.1)) msgs).
Proof.
  revert w space. induction msgs as [|[text payload] msgs IH]; intros w space Hsp Hreq Hmsgs.
  - simpl. rewrite !app_nil_r, set_pending_same, insert_id by done. by destruct w.
  - apply Forall_cons in Hmsgs as [(d & H1 & H2 & H3) Hmsgs]. simpl in H1, H2, H3.
    cbn [map fst snd]. rewrite run_cons.
    change (step loads dumps socket (Message r text) w)
      with (onmessage loads dumps socket r text w).2.
    rewrite (onmessage_queues w r space text d payload)
      by eauto using get_other_alone.
    cbn [snd]. erewrite IH; [|by apply lookup_insert_eq|done|done]. simpl.
    by rewrite insert_insert_eq, <- !app_assoc.
Qed.

(** *** Invariants of the table *)





Lemma closed_at_most_a_pair (space : Space.t) (r : request) :
  at_most_a_pair space r = true → Space.requests (closed space r) = [].
Proof.
  unfold at_most_a_pair, closed, Space.get_other.
  destruct (Space.requests space) as [|x [|y [|z l]]] eqn:Hreq; [| | |done].
  - intros _. simpl. by rewrite Hreq.
  - intros _. destruct (decide (x = r)) as [-> | Hx].
    + rewrite filter_cons_False by naive_solver. simpl. rewrite Hreq. simpl.
      by rewrite decide_True.
    + rewrite filter_cons_True by done. simpl. rewrite Hreq. simpl.
      rewrite decide_False by done. simpl. by rewrite decide_True.
  - intros [Hxy Hr]%andb_prop.
    apply bool_decide_eq_true in Hxy. apply bool_decide_eq_true in Hr.
    destruct Hr as [-> | ->].
    + rewrite filter_cons_False, filter_cons_True by naive_solver. simpl.
      rewrite Hreq. simpl. rewrite decide_True by done. simpl. by rewrite decide_True.
    + rewrite filter_cons_True by done. simpl. rewrite Hreq. simpl.
      rewrite decide_False by done. rewrite decide_True by done. simpl.
      by rewrite decide_True.
Qed.

Lemma list_remove_length (x : request) (l : list request) :
  length (Space.list_remove x l) ≤ length l.
Proof. induction l as [|y l IH]; simpl; [done|]. case_decide; simpl; lia. Qed.

Lemma closed_length (space : Space.t) (r : request) :
  length (Space.requests (closed space r)) ≤ length (Space.requests space).
Proof.
  unfold closed. destruct (Space.get_other space r) as [o|]; simpl.
  - etrans; apply list_remove_length.
  - apply list_remove_length.
Qed.

(** The capacity of a space holds when admission is in one piece. *)
Lemma bounded_attend (w : world) (v : visit) :
  bounded w → bounded (attend loads dumps socket v w).
Proof.
  unfold bounded. intros Hw. destruct v as [r|r text|r]; simpl.
  - destruct (onhandshake r (path r) [] w) as [[[]|e] w'] eqn:Hhs.
    + destruct (onhandshake_admits w r (path r) []) as [Heq Hroom];
        [by rewrite Hhs|].
      rewrite Hhs in Heq. injection Heq as ->. unfold step. simpl.
      destruct (onopen_spaces w r) as [q ->]. apply map_Forall_insert_2; [|done].
      simpl. rewrite length_app. simpl.
      destruct (spaces w !! path r) as [space|] eqn:Hsp; simpl.
      * specialize (Hroom space eq_refl). lia.
      * lia.
    + pose proof (onhandshake_spaces w r (path r) []) as Hsame.
      rewrite Hhs in Hsame. simpl in Hsame. by rewrite Hsame.
  - unfold step. simpl.
    destruct (onmessage_spaces w r text) as [-> | [[payload ->] | (_ & _ & ->)]].
    + done.
    + apply map_Forall_insert_2; [|done]. simpl.
      destruct (spaces w !! path r) as [space|] eqn:Hsp; simpl; [|lia].
      by apply (Hw _ _ Hsp).
    + apply map_Forall_insert_2; [|done]. simpl. lia.
  - unfold step. simpl. destruct (spaces w !! path r) as [space|] eqn:Hsp.
    + rewrite (onclose_present _ _ _ Hsp). simpl.
      destruct (Space.is_empty (closed space r)).
      * by apply map_Forall_delete.
      * apply map_Forall_insert_2; [|done].
        etrans; [apply closed_length|]. by apply (Hw _ _ Hsp).
    + by rewrite (onclose_absent _ _ Hsp).
Qed.

Lemma bounded_visits (vs : list visit) (w : world) :
  bounded w → bounded (foldl (λ w v, attend loads dumps socket v w) w vs).
Proof.
  revert w. induction vs as [|v vs IH]; intros w Hw; [done|].
  simpl. apply IH. by apply bounded_attend.
Qed.

(** * The claims *)

(** C1, the capacity of a space, on a sequence of hooks the transport can
    deliver: three connections to one path each pass [onhandshake] while the
    path has no space yet, and are then opened.  Every handshake precedes
    the open of its connection and none is refused, yet the space ends with
    three members: [onopen] attaches without looking at [is_full]. *)
Theorem third_member_attached :
  let cs := [Handshake one; Handshake two; Handshake three;
             Open one; Open two; Open three] in
  handshake_before_open [] cs = true ∧
  outcomes loads dumps socket cs boot = replicate 6 (inl ()) ∧
  spaces (run loads dumps socket cs boot) !! "/call/42"
    = Some (Space.Make "/call/42" [one; two; three] []).
Proof. by vm_compute. Qed.

(** C4, cascade close: in a space of exactly two members, [onclose] for
    one of them takes both out of the space, calls [close] on the other and
    on nothing else, and returns with no entry left for the path. *)
Theorem cascade_close (w : world) (r o : request) (space : Space.t) :
  spaces w !! path r = Some space →
  o ≠ r →
  Space.requests space = [r; o] ∨ Space.requests space = [o; r] →
  onclose r w =
    (inl (), World (delete (path r) (spaces w)) (trace w ++ [CloseConn o])) ∧
  Space.requests (closed space r) = [] ∧
  spaces (onclose r w).2 !! path r = None.
Proof.
  intros Hsp Hne Hreq. destruct (closed_pair space r o Hne Hreq) as [Ho Hcl].
  assert (onclose r w =
    (inl (), World (delete (path r) (spaces w)) (trace w ++ [CloseConn o]))) as ->.
  { rewrite (onclose_present _ _ _ Hsp), Ho.
    by rewrite (proj2 (is_empty_true _) Hcl). }
  repeat split; [done|]. simpl. apply lookup_delete_eq.
Qed.

(** C3, immediate relay: with both members attached, a NOTIFY from one of
    them makes [onmessage] call [send_message] once, on the other member,
    with the encoding of a NOTIFY whose [data] is the one received; the call
    is made before [onmessage] returns, its outcome is the transport's, and
    the table of spaces, queues included, is left as it was. *)
Theorem immediate_relay (w : world) (r o : request) (space : Space.t) (text : string)
    (payload : json) :
  spaces w !! path r = Some space →
  o ≠ r →
  Space.requests space = [r; o] ∨ Space.requests space = [o; r] →
  is_notify loads text payload →
  let h := trace w ++ [Log DEBUG (onmessage_record r text)] in
  let relayed := dumps (JObj (<[ "method" := JStr "NOTIFY" ]> {[ "data" := payload ]})) in
  onmessage loads dumps socket r text w =
    (inl (), World (spaces w) (h ++ [SendMessage o relayed (socket h o relayed)])).
Proof.
  intros Hsp Hne Hreq (d & H1 & H2 & H3).
  destruct (closed_pair space r o Hne Hreq) as [Ho _].
  by apply (onmessage_relays w r o space text d payload).
Qed.

(** C5, discard on sender exit: when the only member of a space closes,
    [remove] leaves no queued entry of that sender, [onclose] deletes the
    space without closing anybody, and a connection opened afterwards on
    the same path starts a new space and is sent nothing. *)
Theorem discard_on_sender_exit (w : world) (r r' : request) (space : Space.t) :
  spaces w !! path r = Some space →
  Space.requests space = [r] →
  path r' = path r →
  (∀ x, x ∈ Space.pending (Space.remove space r) → x.1 ≠ r) ∧
  onclose r w = (inl (), World (delete (path r) (spaces w)) (trace w)) ∧
  onopen dumps socket r' (onclose r w).2 =
    (inl (),
     World (<[path r := Space.Make (path r) [r'] []]> (spaces w))
           (trace w ++ [Log INFO (creating_space (path r))])).
Proof.
  intros Hsp Hreq Hpath.
  assert (onclose r w = (inl (), World (delete (path r) (spaces w)) (trace w))) as ->.
  { rewrite (onclose_present _ _ _ Hsp). unfold closed.
    rewrite (get_other_alone _ _ Hreq), app_nil_r.
    rewrite (proj2 (is_empty_true _)); [done|].
    simpl. rewrite Hreq. simpl. by rewrite decide_True. }
  repeat split.
  - intros x Hx. simpl in Hx. by apply list_elem_of_filter in Hx as [Hx _].
  - rewrite onopen_absent; simpl; rewrite Hpath.
    + by rewrite insert_delete_eq.
    + apply lookup_delete_eq.
Qed.

(** C6, the configuration: a GET of /peerconnection makes [onmessage] call
    [send_message] once, on the sender, with the encoding of a dictionary
    whose [code] is success, whose [result] holds under [configuration] the
    list of ICE servers of the module, one STUN server, the same for every
    state, sender and request, and whose [msg_id] is the one of the
    request, absent when the request has none; the table of spaces is left
    as it was. *)
Theorem configuration_reply (w : world) (r : request) (text : string)
    (d : gmap string json) :
  loads text = Some (JObj d) →
  d !! "method" = Some (JStr "GET") →
  d !! "resource" = Some (JStr "/peerconnection") →
  let h := trace w ++ [Log DEBUG (onmessage_record r text)] in
  let reply := response (d !! "msg_id") in
  let text' := dumps (JObj reply) in
  onmessage loads dumps socket r text w =
    (match socket h r text' with None => inl () | Some e => inr e end,
     World (spaces w) (h ++ [SendMessage r text' (socket h r text')])) ∧
  reply !! "code" = Some (JStr "success") ∧
  reply !! "result" =
    Some (JObj {[ "configuration" :=
                  JObj {[ "iceServers" :=
                          JArr [JObj {[ "url" := JStr "stun:stun.l.google.com:19302" ]}] ]} ]}) ∧
  reply !! "msg_id" = d !! "msg_id" ∧
  dom reply ⊆ {[ "code"; "result"; "msg_id" ]}.
Proof.
  intros H1 H2 H3. split; [by apply onmessage_get|].
  unfold response, configuration. destruct (d !! "msg_id") as [token|]; repeat split.
  all: try (by simplify_map_eq).
  all: rewrite ?dom_insert_L, ?dom_singleton_L; intros k;
    rewrite !elem_of_union, !elem_of_singleton; tauto.
Qed.

Lemma flushed_spelled_out (r : request) (q : list (request * json)) :
  flushed dumps r q =
    map (λ entry,
           SendMessage r
             (dumps (JObj (<[ "method" := JStr "NOTIFY" ]> {[ "data" := entry.2 ]})))
             None) q.
Proof. unfold flushed. apply map_ext. by intros [sender data]. Qed.

(** C2, as the code has it: NOTIFYs from the only member of a space send
    nothing and are queued after what the queue holds, in the order they
    arrive; when a second connection is then opened on the path, and the
    transport takes every write of the flush, [onopen] sends it, for each
    queued entry, oldest first, the encoding of the dictionary with
    [method] NOTIFY and the [data] of the entry, and leaves the queue
    empty. *)
Theorem queue_then_flush (w : world) (r1 r2 : request) (space : Space.t)
    (msgs : list (string * json)) :
  spaces w !! path r1 = Some space →
  Space.requests space = [r1] →
  Forall (λ m, is_notify loads m.1 m.2) msgs →
  path r2 = path r1 →
  let w1 := run loads dumps socket (map (λ m, Message r1 m.1) msgs) w in
  let queue := Space.pending space ++ map (λ m, (r1, m.2)) msgs in
  takes dumps socket (trace w1) r2 queue →
  spaces w1 = <[path r1 := Space.set_pending space queue]> (spaces w) ∧
  trace w1 = trace w ++ map (λ m, Log DEBUG (onmessage_record r1 m.1)) msgs ∧
  onopen dumps socket r2 w1 =
    (inl (),
     World (<[path r1 := Space.Make (Space.path space) [r1; r2] []]> (spaces w))
           (trace w1 ++
            map (λ entry,
                   SendMessage r2
                     (dumps (JObj (<[ "method" := JStr "NOTIFY" ]>
                                     {[ "data" := entry.2 ]})))
                     None) queue)).
Proof.
  intros Hsp Hreq Hmsgs Hpath w1 queue. subst w1 queue.
  rewrite (lone_notifies w r1 space msgs) by done. simpl. intros Htakes.
  repeat split.
  erewrite onopen_present; [|rewrite Hpath; apply lookup_insert_eq|done].
  simpl. by rewrite Hpath, insert_insert_eq, Hreq, flushed_spelled_out.
Qed.

(** C10, a write that fails during the flush of [onopen]: the exception
    leaves [onopen], the connection stays among the members and the queue
    keeps every entry; whereas [onmessage] returns normally when the write
    that relays a NOTIFY fails. *)
Theorem flush_failure_propagates (w : world) (r s : request) (space : Space.t)
    (d : json) (e : exn) (q1 q2 : list (request * json))
    (w' : world) (r' o : request) (space' : Space.t) (text : string)
    (payload : json) (e' : exn) :
  spaces w !! path r = Some space →
  Space.pending space = q1 ++ (s, d) :: q2 →
  takes dumps socket (trace w) r q1 →
  socket (trace w ++ flushed dumps r q1) r (dumps (notify d)) = Some e →
  spaces w' !! path r' = Some space' →
  Space.get_other space' r' = Some o →
  is_notify loads text payload →
  socket (trace w' ++ [Log DEBUG (onmessage_record r' text)]) o (dumps (notify payload))
    = Some e' →
  onopen dumps socket r w =
    (inr e,
     World (<[path r := Space.Make (Space.path space) (Space.requests space ++ [r])
                                   (q1 ++ (s, d) :: q2)]> (spaces w))
           (trace w ++ flushed dumps r q1 ++ [SendMessage r (dumps (notify d)) (Some e)])) ∧
  onmessage loads dumps socket r' text w' =
    (inl (),
     World (spaces w')
           (trace w' ++ [Log DEBUG (onmessage_record r' text);
                         SendMessage o (dumps (notify payload)) (Some e')])).
Proof.
  intros Hsp Hpend Hq1 He Hsp' Ho (d' & H1 & H2 & H3) He'. split.
  - rewrite (onopen_raises w r s space d e q1 q2) by done.
    unfold Space.add. by rewrite Hpend.
  - rewrite (onmessage_relays w' r' o space' text d' payload) by done.
    simpl. by rewrite He', <- app_assoc.
Qed.

(** C7, as the code has it.  A message that decodes to a dictionary whose
    [method] is not NOTIFY, and is either not GET or a GET with a
    [resource] other than /peerconnection, is logged and otherwise ignored.
    A required field that is missing is no such case: a dictionary without
    [method] raises [KeyError] for it, a GET without [resource] raises
    [KeyError] for it, and a NOTIFY without [data] raises [KeyError] for it
    unless a member other than the sender is in the space, where the
    message is dropped.  A text that does not decode raises [ValueError],
    and one that decodes to something that is no dictionary raises
    [TypeError].  All of this comes after the one log line, and on no
    message does [onmessage] call [close]. *)
Theorem unknown_method_ignored (w : world) (r : request) (text : string) :
  let out := onmessage loads dumps socket r text w in
  let logged := World (spaces w) (trace w ++ [Log DEBUG (onmessage_record r text)]) in
  (∀ d method,
     loads text = Some (JObj d) →
     d !! "method" = Some method →
     str_eq method "NOTIFY" = false →
     str_eq method "GET" = false
     ∨ (∃ resource, d !! "resource" = Some resource ∧
                    str_eq resource "/peerconnection" = false) →
     out = (inl (), logged)) ∧
  (loads text = None → out = (inr ValueError, logged)) ∧
  (∀ v, loads text = Some v → (∀ d, v ≠ JObj d) → out = (inr TypeError, logged)) ∧
  (∀ d, loads text = Some (JObj d) → d !! "method" = None →
        out = (inr (KeyError "method"), logged)) ∧
  (∀ d, loads text = Some (JObj d) → d !! "method" = Some (JStr "GET") →
        d !! "resource" = None →
        out = (inr (KeyError "resource"), logged)) ∧
  (∀ d, loads text = Some (JObj d) → d !! "method" = Some (JStr "NOTIFY") →
        d !! "data" = None →
        match Space.get_other (space_of w r) r with
        | Some _ => out = (inl (), logged)
        | None => out.1 = inr (KeyError "data")
        end) ∧
  (∀ o, CloseConn o ∈ trace out.2 → CloseConn o ∈ trace w).
Proof.
  split; [|split; [|split; [|split; [|split; [|split]]]]].
  - intros d method. apply onmessage_ignores.
  - apply onmessage_undecodable.
  - intros v H1 H2. unfold onmessage, getitem. exec. rewrite H1. exec.
    destruct v; try done. by destruct (H2 members).
  - intros d. apply onmessage_no_method.
  - intros d H1 H2 H3. unfold onmessage, getitem. exec. rewrite H1. exec.
    rewrite H2. exec. by rewrite H3.
  - intros d H1 H2 H3. unfold space_of.
    destruct (spaces w !! path r) as [space|] eqn:Hsp; simpl;
      [destruct (Space.get_other space r) as [o|] eqn:Ho|];
      unfold onmessage, getitem, contains; exec; rewrite H1; exec;
      rewrite H2; exec; rewrite Hsp; exec; rewrite ?Ho; exec; by rewrite H3.
  - intros o. destruct (onmessage_trace w r text) as (evs & -> & Hevs).
    rewrite elem_of_app. intros [?|?]; [done|]. by destruct (Hevs o).
Qed.


(** Close hooks run one after the other, on a transport whose [close]
    returns at once: when the space of the connection's path is absent, or
    holds no member but the connection and at most one peer of it, the
    first [onclose] leaves no space on the path, and an [onclose] that
    follows it, for the connection again or for the peer it closed, returns
    without changing the table or calling anything. *)
Theorem second_close_harmless (w : world) (r r' : request) :
  (∀ space, spaces w !! path r = Some space → at_most_a_pair space r = true) →
  path r' = path r →
  spaces (onclose r w).2 !! path r = None ∧
  onclose r' (onclose r w).2 = (inl (), (onclose r w).2).
Proof.
  intros Hpair Hpath.
  assert (spaces (onclose r w).2 !! path r = None) as Hgone.
  { destruct (spaces w !! path r) as [space|] eqn:Hsp.
    - rewrite (onclose_present _ _ _ Hsp). simpl.
      rewrite (proj2 (is_empty_true _)) by (by apply closed_at_most_a_pair, Hpair).
      apply lookup_delete_eq.
    - by rewrite (onclose_absent _ _ Hsp). }
  split; [done|]. apply onclose_absent. by rewrite Hpath.
Qed.

End Properties.

(** * The claims on the examples *)

(** An offer and a candidate queued by the first connection reach the
    second one, in that order, when it is opened. *)
Lemma queue_then_flush_witness :
  let w := World (table [one] []) [] in
  let msgs := [(offer_text, offer); (candidate_text, candidate)] in
  let w1 := run decode encode up [Message one offer_text; Message one candidate_text] w in
  spaces w1 = table [one] [(one, offer); (one, candidate)] ∧
  trace w1 = [Log DEBUG (onmessage_record one offer_text);
              Log DEBUG (onmessage_record one candidate_text)] ∧
  onopen encode up two w1 =
    (inl (),
     World (table [one; two] [])
           (trace w1 ++
            [SendMessage two
               (encode (JObj (<[ "method" := JStr "NOTIFY" ]> {[ "data" := offer ]})))
               None;
             SendMessage two
               (encode (JObj (<[ "method" := JStr "NOTIFY" ]> {[ "data" := candidate ]})))
               None])).
Proof.
  intros w msgs w1.
  destruct (queue_then_flush decode encode up w one two
              (Space.Make "/call/42" [one] []) msgs) as (H1 & H2 & H3).
  - reflexivity.
  - reflexivity.
  - constructor; [|constructor; [|constructor]];
      (eexists; split; [vm_compute; reflexivity|]); split; vm_compute; reflexivity.
  - reflexivity.
  - intros i x _. reflexivity.
  - split; [|split].
    + etrans; [exact H1|]. subst w. unfold table. apply insert_singleton_eq.
    + exact H2.
    + etrans; [exact H3|]. subst w. unfold table. simpl.
      by rewrite insert_singleton_eq.
Defined.

(** C2 does not hold when the transport refuses a write of the flush: the
    socket of the second connection is gone when it is opened, the first
    write raises, the second entry is never written, and the queue keeps
    both entries. *)
Lemma flush_stops_at_failed_write :
  let w1 := run decode encode (breaks two 0)
              [Message one offer_text; Message one candidate_text]
              (World (table [one] []) []) in
  spaces w1 !! "/call/42" = Some (Space.Make "/call/42" [one] [(one, offer); (one, candidate)]) ∧
  (onopen encode (breaks two 0) two w1).1 = inr (SocketError 32) ∧
  trace (onopen encode (breaks two 0) two w1).2 =
    trace w1 ++
    [SendMessage two
       (encode (JObj (<[ "method" := JStr "NOTIFY" ]> {[ "data" := offer ]})))
       (Some (SocketError 32))] ∧
  spaces (onopen encode (breaks two 0) two w1).2 !! "/call/42" =
    Some (Space.Make "/call/42" [one; two] [(one, offer); (one, candidate)]).
Proof. repeat split; by vm_compute. Qed.

(** A candidate from the second of a pair is relayed to the first. *)
Lemma immediate_relay_witness :
  onmessage decode encode up two candidate_text (World (table [one; two] []) []) =
    (inl (),
     World (table [one; two] [])
           [Log DEBUG (onmessage_record two candidate_text);
            SendMessage one (encode (notify candidate)) None]).
Proof.
  apply (immediate_relay decode encode up (World (table [one; two] []) []) two one
           (Space.Make "/call/42" [one; two] []) candidate_text candidate).
  - reflexivity.
  - discriminate.
  - right. reflexivity.
  - eexists. split; [vm_compute; reflexivity|]. split; vm_compute; reflexivity.
Defined.

(** The first of a pair closes: the second is closed, the space deleted. *)
Lemma cascade_close_witness :
  onclose one (World (table [one; two] []) []) =
    (inl (), World (delete "/call/42" (table [one; two] [])) [CloseConn two]) ∧
  spaces (onclose one (World (table [one; two] []) [])).2 !! "/call/42" = None.
Proof.
  destruct (cascade_close (World (table [one; two] []) []) one two
              (Space.Make "/call/42" [one; two] [])) as (H1 & _ & H3).
  - reflexivity.
  - discriminate.
  - left. reflexivity.
  - split; [exact H1 | exact H3].
Defined.

(** The first connection queues an offer and closes; the second one,
    opened afterwards, is sent nothing. *)
Lemma discard_on_sender_exit_witness :
  let w := World (table [one] [(one, offer)]) [] in
  onclose one w = (inl (), World (delete "/call/42" (table [one] [(one, offer)])) []) ∧
  onopen encode up two (onclose one w).2 =
    (inl (),
     World (<["/call/42" := Space.Make "/call/42" [two] []]> (table [one] [(one, offer)]))
           [Log INFO (creating_space "/call/42")]).
Proof.
  intros w.
  destruct (discard_on_sender_exit encode up w one two
              (Space.Make "/call/42" [one] [(one, offer)])) as (_ & H2 & H3).
  - reflexivity.
  - reflexivity.
  - reflexivity.
  - split; [exact H2 | exact H3].
Defined.

(** The GET of the module docstring, with its [msg_id]. *)
Lemma configuration_reply_witness :
  let text := js "{'method': 'GET', 'msg_id': 1, 'resource': '/peerconnection'}" in
  onmessage decode encode up one text (World (table [one] []) []) =
    (inl (),
     World (table [one] [])
           [Log DEBUG (onmessage_record one text);
            SendMessage one (encode (JObj (response (Some (JNum 1))))) None]) ∧
  response (Some (JNum 1)) !! "msg_id" = Some (JNum 1) ∧
  response (Some (JNum 1)) !! "result" =
    Some (JObj {[ "configuration" :=
                  JObj {[ "iceServers" :=
                          JArr [JObj {[ "url" := JStr "stun:stun.l.google.com:19302" ]}] ]} ]}).
Proof.
  intros text.
  destruct (configuration_reply decode encode up (World (table [one] []) []) one text
              (<[ "method" := JStr "GET" ]>
                 (<[ "msg_id" := JNum 1 ]> {[ "resource" := JStr "/peerconnection" ]})))
    as (H1 & _ & H3 & H4 & _).
  - vm_compute. reflexivity.
  - vm_compute. reflexivity.
  - vm_compute. reflexivity.
  - split; [exact H1 | split; [exact H4 | exact H3]].
Defined.

(** The socket of the second connection takes one write and breaks: the
    flush of two queued entries raises at the second one, and the relay of
    a later offer to that connection is dropped silently. *)
Lemma flush_failure_propagates_witness :
  let w := World (table [one] [(one, offer); (one, candidate)]) [] in
  let w' := World (table [one; two] []) [SendMessage two (encode (notify offer)) None] in
  onopen encode (breaks two 1) two w =
    (inr (SocketError 32),
     World (<["/call/42" := Space.Make "/call/42" [one; two]
                                       [(one, offer); (one, candidate)]]> (spaces w))
           [SendMessage two (encode (notify offer)) None;
            SendMessage two (encode (notify candidate)) (Some (SocketError 32))]) ∧
  onmessage decode encode (breaks two 1) one offer_text w' =
    (inl (),
     World (spaces w')
           [SendMessage two (encode (notify offer)) None;
            Log DEBUG (onmessage_record one offer_text);
            SendMessage two (encode (notify offer)) (Some (SocketError 32))]).
Proof.
  intros w w'.
  apply (flush_failure_propagates decode encode (breaks two 1) w two one
           (Space.Make "/call/42" [one] [(one, offer); (one, candidate)])
           candidate (SocketError 32) [(one, offer)] []
           w' one two (Space.Make "/call/42" [one; two] []) offer_text offer
           (SocketError 32)).
  - reflexivity.
  - reflexivity.
  - intros [|i] x Hx; [vm_compute; reflexivity | discriminate].
  - vm_compute. reflexivity.
  - reflexivity.
  - vm_compute. reflexivity.
  - eexists. split; [vm_compute; reflexivity|]. split; vm_compute; reflexivity.
  - vm_compute. reflexivity.
Defined.

(** C7 does not hold of a dictionary without [method]: [onmessage] raises
    [KeyError] on it instead of returning. *)
Lemma missing_method_raises :
  decode (js "{}") = Some (JObj ∅) ∧
  onmessage decode encode up one (js "{}") (World (table [one] []) []) =
    (inr (KeyError "method"),
     World (table [one] []) [Log DEBUG (onmessage_record one (js "{}"))]) ∧
  (onmessage decode encode up one (js "{}") (World (table [one] []) [])).1 ≠ inl ().
Proof. repeat split; [by vm_compute..|]. vm_compute. discriminate. Qed.

(** An unknown method is ignored; a text that is no JSON, a GET that names
    no resource and a NOTIFY without data from a lone member raise. *)
Lemma unknown_method_ignored_witness :
  let w := World (table [one] []) [] in
  let logged text := World (table [one] []) [Log DEBUG (onmessage_record one text)] in
  onmessage decode_more encode up one (js "{'method': 'BYE'}") w
    = (inl (), logged (js "{'method': 'BYE'}")) ∧
  onmessage decode_more encode up one "offer" w = (inr ValueError, logged "offer") ∧
  onmessage decode_more encode up one "[1, 2]" w = (inr TypeError, logged "[1, 2]") ∧
  onmessage decode_more encode up one (js "{}") w
    = (inr (KeyError "method"), logged (js "{}")) ∧
  onmessage decode_more encode up one (js "{'method': 'GET'}") w
    = (inr (KeyError "resource"), logged (js "{'method': 'GET'}")) ∧
  (onmessage decode_more encode up one (js "{'method': 'NOTIFY'}") w).1
    = inr (KeyError "data").
Proof.
  intros w logged. split; [|split; [|split; [|split; [|split]]]].
  - destruct (unknown_method_ignored decode_more encode up w one (js "{'method': 'BYE'}"))
      as (H & _).
    apply (H {[ "method" := JStr "BYE" ]} (JStr "BYE")).
    + vm_compute. reflexivity.
    + vm_compute. reflexivity.
    + vm_compute. reflexivity.
    + left. vm_compute. reflexivity.
  - destruct (unknown_method_ignored decode_more encode up w one "offer")
      as (_ & H & _).
    apply H. vm_compute. reflexivity.
  - destruct (unknown_method_ignored decode_more encode up w one "[1, 2]")
      as (_ & _ & H & _).
    apply (H (JArr [JNum 1; JNum 2])); [vm_compute; reflexivity | discriminate].
  - destruct (unknown_method_ignored decode_more encode up w one (js "{}"))
      as (_ & _ & _ & H & _).
    apply (H ∅); vm_compute; reflexivity.
  - destruct (unknown_method_ignored decode_more encode up w one (js "{'method': 'GET'}"))
      as (_ & _ & _ & _ & H & _).
    apply (H {[ "method" := JStr "GET" ]}); vm_compute; reflexivity.
  - destruct (unknown_method_ignored decode_more encode up w one (js "{'method': 'NOTIFY'}"))
      as (_ & _ & _ & _ & _ & H & _).
    apply (H {[ "method" := JStr "NOTIFY" ]}); vm_compute; reflexivity.
Defined.



(** Close hooks run one after the other, after [late_close]: the close
    hook of the second connection, which is no member of the new pair,
    takes the third connection out of it, and a second [onclose] for the
    same connection takes the fourth one out, closes it and deletes the
    space. *)
Lemma second_close_changes_table :
  let w := (onclose two (run decode encode up late_close boot)).2 in
  spaces w !! "/call/42" = Some (Space.Make "/call/42" [four] []) ∧
  onclose two w =
    (inl (), World (delete "/call/42" (spaces w)) (trace w ++ [CloseConn four])) ∧
  spaces (onclose two w).2 ≠ spaces w.
Proof.
  intros w.
  assert (spaces w !! "/call/42" = Some (Space.Make "/call/42" [four] [])) as Hsp
    by (by vm_compute).
  assert (Space.get_other (Space.Make "/call/42" [four] []) two = Some four) as Hother
    by (by vm_compute).
  assert (Space.is_empty (closed (Space.Make "/call/42" [four] []) two) = true) as Hempty
    by (by vm_compute).
  assert (onclose two w
          = (inl (), World (delete "/call/42" (spaces w)) (trace w ++ [CloseConn four])))
    as Hclose.
  { etrans; [apply (onclose_present w two _ Hsp)|]. by rewrite Hother, Hempty. }
  repeat split; [done..|]. rewrite Hclose. cbn [snd spaces]. intros Heq.
  apply (f_equal (lookup "/call/42")) in Heq.
  rewrite lookup_delete_eq, Hsp in Heq. discriminate.
Qed.

(** After the first of a pair has closed, its own close hook again and the
    close hook of its peer find nothing to do. *)
Lemma second_close_harmless_witness :
  let w := World (table [one; two] []) [] in
  onclose one (onclose one w).2 = (inl (), (onclose one w).2) ∧
  onclose two (onclose one w).2 = (inl (), (onclose one w).2).
Proof.
  intros w. split.
  - apply (second_close_harmless w one one); [|reflexivity].
    intros space [= <-]. reflexivity.
  - apply (second_close_harmless w one two); [|reflexivity].
    intros space [= <-]. reflexivity.
Defined.

Set Warnings "-clear-no-such-hyp".

(** * Further properties of the hooks *)

Section Further.

Context (loads : string → option json) (dumps : json → string).
Context (socket : list event → request → string → option exn).

(** *** Lists of members *)

Lemma list_remove_elem_of (x a : request) (l : list request) :
  x ∈ Space.list_remove a l → x ∈ l.
Proof.
  induction l as [|y l IH]; simpl; [done|].
  case_decide; rewrite !elem_of_cons; naive_solver.
Qed.

Lemma list_remove_Forall (P : request → Prop) (a : request) (l : list request) :
  Forall P l → Forall P (Space.list_remove a l).
Proof.
  rewrite !Forall_forall. intros H x Hx. by apply H, (list_remove_elem_of x a).
Qed.



Lemma get_other_Some (space : Space.t) (r o : request) :
  Space.get_other space r = Some o ↔
  ∃ l1 l2, Space.requests space = l1 ++ o :: l2 ∧ Forall (λ x, x = r) l1 ∧ o ≠ r.
Proof.
  unfold Space.get_other. generalize (Space.requests space). intros l.
  induction l as [|y l IH]; simpl.
  - split; [done|]. intros (l1 & l2 & H & _). by destruct l1.
  - destruct (decide (y = r)) as [-> | Hy].
    + rewrite filter_cons_False by naive_solver. rewrite IH. split.
      * intros (l1 & l2 & -> & H1 & H2). exists (r :: l1), l2. repeat split; [|done].
        by constructor.
      * intros (l1 & l2 & Heq & H1 & H2). destruct l1 as [|z l1]; simplify_eq/=.
        apply Forall_cons in H1 as [_ H1]. by exists l1, l2.
    + rewrite filter_cons_True by done. simpl. split.
      * intros [= ->]. by exists [], l.
      * intros (l1 & l2 & Heq & H1 & H2). destruct l1 as [|z l1]; simplify_eq/=; [done|].
        apply Forall_cons in H1 as [? _]. done.
Qed.

Lemma get_other_None (space : Space.t) (r : request) :
  Space.get_other space r = None ↔ Forall (λ x, x = r) (Space.requests space).
Proof.
  unfold Space.get_other. rewrite head_None.
  generalize (Space.requests space). intros l.
  induction l as [|y l IH]; simpl; [done|].
  destruct (decide (y = r)) as [-> | Hy].
  - rewrite filter_cons_False by naive_solver. rewrite IH, Forall_cons. naive_solver.
  - rewrite filter_cons_True by done. rewrite Forall_cons. naive_solver.
Qed.


(** *** Effects of the hooks, whatever the transport does *)

Lemma flush_trace (w : world) (r : request) (q : list (request * json)) :
  ∃ evs,
    trace (for_each q (λ '(ignore, data), send_message socket r (dumps (notify data))) w).2
      = trace w ++ evs ∧
    Forall (λ e, ∃ text out, e = SendMessage r text out) evs.
Proof.
  revert w. induction q as [|[s d] q IH]; intros w; simpl.
  - exists []. by rewrite app_nil_r.
  - exec_send. destruct (socket (trace w) r (dumps (notify d))) as [e|] eqn:Hd.
    + eexists [_]. split; [done|]. repeat constructor. eauto.
    + fold (@for_each (request * json)).
      edestruct IH as (evs & -> & Hevs). simpl. rewrite <- app_assoc.
      eexists (_ :: evs). split; [done|]. constructor; eauto.
Qed.

Lemma flush_raises (w : world) (r : request) (q : list (request * json)) (e : exn) :
  (for_each q (λ '(ignore, data), send_message socket r (dumps (notify data))) w).1 = inr e →
  ∃ h text, socket h r text = Some e.
Proof.
  revert w. induction q as [|[s d] q IH]; intros w; simpl; [done|].
  exec_send. destruct (socket (trace w) r (dumps (notify d))) as [e'|] eqn:Hd.
  - intros [= <-]. eauto.
  - fold (@for_each (request * json)). apply IH.
Qed.

Lemma onopen_effect (w : world) (r : request) :
  let out := onopen dumps socket r w in
  ∃ space',
    spaces out.2 = <[path r := space']> (spaces w) ∧
    Space.path space' = Space.path (space_of w r) ∧
    Space.requests space' = Space.requests (space_of w r) ++ [r] ∧
    (out.1 = inl () → Space.pending space' = []) ∧
    (∀ e, out.1 = inr e →
          Space.pending space' = Space.pending (space_of w r) ∧
          ∃ h text, socket h r text = Some e).
Proof.
  unfold onopen, space_of. exec. destruct (spaces w !! path r) as [space|]; exec.
  - match goal with |- context [for_each ?q ?f ?w0] =>
      pose proof (flush_spaces dumps socket w0 r q) as Hfl;
      pose proof (flush_raises w0 r q) as Hex;
      destruct (for_each q f w0) as [[[]|e] w1]
    end; simpl in *.
    + eexists. rewrite Hfl, insert_insert_eq. repeat split; done.
    + eexists. rewrite Hfl. repeat split; try done. by apply Hex.
  - eexists. rewrite !insert_insert_eq. repeat split; done.
Qed.

Lemma onopen_trace (w : world) (r : request) :
  ∃ evs,
    trace (onopen dumps socket r w).2 = trace w ++ evs ∧
    Forall (λ e, e = Log INFO (creating_space (path r))
                 ∨ ∃ text out, e = SendMessage r text out) evs.
Proof.
  unfold onopen. exec. destruct (spaces w !! path r) as [space|]; exec.
  - match goal with |- context [for_each ?q ?f ?w0] =>
      destruct (flush_trace w0 r q) as (evs & Htr & Hevs);
      destruct (for_each q f w0) as [[[]|e] w1]
    end; simpl in *; exists evs; (split; [done|]);
      eapply Forall_impl; eauto.
  - eexists [_]. split; [done|]. repeat constructor.
Qed.

Lemma onmessage_table (w : world) (r : request) (text : string) :
  let w' := (onmessage loads dumps socket r text w).2 in
  spaces w' = spaces w
  ∨ (∃ payload,
       Space.get_other (space_of w r) r = None ∧
       spaces w' =
       <[path r := Space.set_pending (space_of w r)
                     (Space.pending (space_of w r) ++ [(r, payload)])]> (spaces w))
  ∨ (spaces w !! path r = None ∧
     spaces w' = <[path r := Space.init (path r)]> (spaces w)).
Proof.
  unfold space_of. cases_of_onmessage; simpl; try (by left).
  all: first [ by right; left; eexists; rewrite ?insert_insert_eq
             | by right; right ].
Qed.

(** ** class Space *)

(** X1, [get_other]: it yields the first member that is not the request,
    whether or not the request is a member itself, and nothing exactly when
    no member differs from the request (an empty space included). *)
Theorem get_other_first_other (space : Space.t) (r : request) :
  (∀ o, Space.get_other space r = Some o ↔
        ∃ l1 l2, Space.requests space = l1 ++ o :: l2 ∧
                 Forall (λ x, x = r) l1 ∧ o ≠ r) ∧
  (Space.get_other space r = None ↔ Forall (λ x, x = r) (Space.requests space)).
Proof. split; [intros o; apply get_other_Some | apply get_other_None]. Qed.


(** ** The hooks one by one *)

(** X3, [onhandshake]: it admits the connection exactly when the path has
    no space or a space of fewer than two members, whatever the request and
    the headers; admitting changes nothing, refusing raises the 400 error
    after one error log line, and the table is never touched. *)
Theorem onhandshake_decides (w : world) (r : request) (p : string)
    (headers : list (string * string)) :
  let out := onhandshake r p headers w in
  (out.1 = inl ()
   ↔ ∀ space, spaces w !! p = Some space → length (Space.requests space) < 2) ∧
  (out.1 = inl () → out.2 = w) ∧
  (∀ e, out.1 = inr e →
        e = HTTPError "400 Bad Request - Space Full" ∧
        out.2 = World (spaces w) (trace w ++ [Log ERROR space_is_full])).
Proof.
  unfold onhandshake. exec. destruct (spaces w !! p) as [space|]; simpl.
  - unfold Space.is_full. case_bool_decide as Hfull; simpl.
    + split; [|split].
      * split; [done|]. intros Hroom. specialize (Hroom space eq_refl). lia.
      * done.
      * by intros e [= <-].
    + split; [|split].
      * split; [|done]. intros _ ? [= <-]. lia.
      * done.
      * done.
  - split; [|split]; [split; done | done | done].
Qed.

(** X4, [onopen] never refuses: whatever the table holds and whatever the
    transport does, the connection ends up as the last member of the space
    of its path, also when that space is full already; no other path is
    touched; the queue is empty when [onopen] returns and untouched when it
    raises, and it raises nothing but what a write to the connection
    raised. *)
Theorem onopen_always_attaches (w : world) (r : request) :
  let out := onopen dumps socket r w in
  ∃ space',
    spaces out.2 = <[path r := space']> (spaces w) ∧
    Space.requests space' = Space.requests (space_of w r) ++ [r] ∧
    (out.1 = inl () → Space.pending space' = []) ∧
    (∀ e, out.1 = inr e →
          Space.pending space' = Space.pending (space_of w r) ∧
          ∃ h text, socket h r text = Some e).
Proof.
  destruct (onopen_effect w r) as (space' & H1 & _ & H2 & H3 & H4).
  by exists space'.
Qed.

(** X5, what [onopen] calls: besides the log line of a new space, writes
    to the connection being opened; it writes to no other connection and
    closes none. *)
Theorem onopen_writes_to_self (w : world) (r : request) :
  ∃ evs,
    trace (onopen dumps socket r w).2 = trace w ++ evs ∧
    Forall (λ e, e = Log INFO (creating_space (path r))
                 ∨ ∃ text out, e = SendMessage r text out) evs.
Proof. apply onopen_trace. Qed.

(** [onclose] on a transport whose [close] returns at once. *)
Lemma onclose_summary (w : world) (r : request) :
  let out := onclose r w in
  out.1 = inl () ∧
  (trace out.2 = trace w
   ∨ ∃ o space, spaces w !! path r = Some space ∧ o ∈ Space.requests space ∧
                o ≠ r ∧ trace out.2 = trace w ++ [CloseConn o]) ∧
  (∀ space', spaces out.2 !! path r = Some space' → Space.requests space' ≠ []) ∧
  (∀ p, p ≠ path r → spaces out.2 !! p = spaces w !! p).
Proof.
  destruct (spaces w !! path r) as [space|] eqn:Hsp.
  - rewrite (onclose_present _ _ _ Hsp). simpl. repeat split.
    + destruct (Space.get_other space r) as [o|] eqn:Ho.
      * right. exists o, space. apply get_other_Some in Ho as (l1 & l2 & Hreq & _ & Hne).
        repeat split; try done. rewrite Hreq. set_solver.
      * left. by rewrite app_nil_r.
    + destruct (Space.is_empty (closed space r)) eqn:Hemp.
      * intros space'. by rewrite lookup_delete_eq.
      * intros space'. rewrite lookup_insert_eq. intros [= <-] Hnil.
        apply is_empty_true in Hnil. congruence.
    + intros p Hp. destruct (Space.is_empty (closed space r)).
      * by rewrite lookup_delete_ne.
      * by rewrite lookup_insert_ne.
  - rewrite (onclose_absent _ _ Hsp). simpl. repeat split; try done.
    + by left.
    + intros space'. by rewrite Hsp.
Qed.


(** X8, every hook is local to the path of its connection: the spaces of
    all other paths are left as they are. *)
Theorem hooks_are_local (w : world) (c : call) (p : string) :
  p ≠ path (connection c) →
  spaces (step loads dumps socket c w) !! p = spaces w !! p.
Proof.
  intros Hp. unfold step. destruct c as [r|r|r text|r]; simpl in *.
  - by rewrite onhandshake_spaces.
  - destruct (onopen_effect w r) as (space' & -> & _). by rewrite lookup_insert_ne.
  - destruct (onmessage_table w r text) as [-> | [(payload & _ & ->) | (_ & ->)]];
      [done | by rewrite lookup_insert_ne..].
  - by apply onclose_summary.
Qed.

(** *** [onmessage], the remaining paths *)

Lemma onmessage_queues_new (w : world) (r : request) (text : string)
    (d : gmap string json) (payload : json) :
  spaces w !! path r = None →
  loads text = Some (JObj d) →
  d !! "method" = Some (JStr "NOTIFY") →
  d !! "data" = Some payload →
  onmessage loads dumps socket r text w =
    (inl (),
     World (<[path r := Space.Make (path r) [] [(r, payload)]]> (spaces w))
           (trace w ++ [Log DEBUG (onmessage_record r text);
                        Log INFO (creating_space (path r))])).
Proof.
  intros Hsp H1 H2 H3. unfold onmessage, getitem, contains. exec. rewrite H1. exec.
  rewrite H2. exec. rewrite Hsp. exec. rewrite H3. exec.
  by rewrite insert_insert_eq, <- app_assoc.
Qed.

Lemma onmessage_drops (w : world) (r o : request) (space : Space.t) (text : string)
    (d : gmap string json) :
  spaces w !! path r = Some space →
  Space.get_other space r = Some o →
  loads text = Some (JObj d) →
  d !! "method" = Some (JStr "NOTIFY") →
  d !! "data" = None →
  onmessage loads dumps socket r text w =
    (inl (), World (spaces w) (trace w ++ [Log DEBUG (onmessage_record r text)])).
Proof.
  intros Hsp Ho H1 H2 H3. unfold onmessage, getitem, contains. exec. rewrite H1. exec.
  rewrite H2. exec. rewrite Hsp. exec. rewrite Ho. exec. by rewrite H3.
Qed.

Lemma onmessage_no_data_alone (w : world) (r : request) (space : Space.t) (text : string)
    (d : gmap string json) :
  spaces w !! path r = Some space →
  Space.get_other space r = None →
  loads text = Some (JObj d) →
  d !! "method" = Some (JStr "NOTIFY") →
  d !! "data" = None →
  onmessage loads dumps socket r text w =
    (inr (KeyError "data"),
     World (spaces w) (trace w ++ [Log DEBUG (onmessage_record r text)])).
Proof.
  intros Hsp Ho H1 H2 H3. unfold onmessage, getitem, contains. exec. rewrite H1. exec.
  rewrite H2. exec. rewrite Hsp. exec. rewrite Ho. exec. by rewrite H3.
Qed.

Lemma onmessage_no_data_new (w : world) (r : request) (text : string)
    (d : gmap string json) :
  spaces w !! path r = None →
  loads text = Some (JObj d) →
  d !! "method" = Some (JStr "NOTIFY") →
  d !! "data" = None →
  onmessage loads dumps socket r text w =
    (inr (KeyError "data"),
     World (<[path r := Space.init (path r)]> (spaces w))
           (trace w ++ [Log DEBUG (onmessage_record r text);
                        Log INFO (creating_space (path r))])).
Proof.
  intros Hsp H1 H2 H3. unfold onmessage, getitem, contains. exec. rewrite H1. exec.
  rewrite H2. exec. rewrite Hsp. exec. rewrite H3. exec. by rewrite <- app_assoc.
Qed.

(** X9, a NOTIFY that carries [data]: [onmessage] returns normally, and
    either a member other than the sender exists, then one write of the
    message to the first such member is attempted, with the outcome the
    transport gives it, and nothing is queued, so that the message is lost
    when the write fails; or none exists, then nothing is written and the
    message is queued last under its sender, in a new space when the path
    had none. *)
Theorem notify_relayed_or_queued (w : world) (r : request) (text : string)
    (payload : json) :
  is_notify loads text payload →
  let out := onmessage loads dumps socket r text w in
  let h := trace w ++ [Log DEBUG (onmessage_record r text)] in
  out.1 = inl () ∧
  match Space.get_other (space_of w r) r with
  | Some o =>
      spaces out.2 = spaces w ∧
      trace out.2 =
        h ++ [SendMessage o (dumps (notify payload)) (socket h o (dumps (notify payload)))]
  | None =>
      spaces out.2 =
        <[path r := Space.set_pending (space_of w r)
                      (Space.pending (space_of w r) ++ [(r, payload)])]> (spaces w) ∧
      trace out.2 =
        h ++ match spaces w !! path r with
             | Some _ => []
             | None => [Log INFO (creating_space (path r))]
             end
  end.
Proof.
  intros (d & H1 & H2 & H3). unfold space_of.
  destruct (spaces w !! path r) as [space|] eqn:Hsp; simpl.
  - destruct (Space.get_other space r) as [o|] eqn:Ho.
    + by rewrite (onmessage_relays loads dumps socket w r o space text d payload).
    + rewrite (onmessage_queues loads dumps socket w r space text d payload) by done.
      simpl. by rewrite app_nil_r.
  - rewrite (onmessage_queues_new w r text d payload) by done. simpl.
    by rewrite <- app_assoc.
Qed.

(** X10, a NOTIFY without [data]: with a member other than the sender in
    the space it is dropped without a trace but the log line, the
    [KeyError] being caught with the write errors; with no such member
    [onmessage] raises the [KeyError], queues nothing, and leaves a new
    empty space behind when the path had none. *)
Theorem notify_without_data (w : world) (r : request) (text : string)
    (d : gmap string json) :
  loads text = Some (JObj d) →
  d !! "method" = Some (JStr "NOTIFY") →
  d !! "data" = None →
  let out := onmessage loads dumps socket r text w in
  let h := trace w ++ [Log DEBUG (onmessage_record r text)] in
  match Space.get_other (space_of w r) r with
  | Some o => out = (inl (), World (spaces w) h)
  | None =>
      out.1 = inr (KeyError "data") ∧
      match spaces w !! path r with
      | Some _ => out.2 = World (spaces w) h
      | None =>
          out.2 = World (<[path r := Space.init (path r)]> (spaces w))
                        (h ++ [Log INFO (creating_space (path r))])
      end
  end.
Proof.
  intros H1 H2 H3. unfold space_of.
  destruct (spaces w !! path r) as [space|] eqn:Hsp; simpl.
  - destruct (Space.get_other space r) as [o|] eqn:Ho.
    + by apply (onmessage_drops w r o space text d).
    + by rewrite (onmessage_no_data_alone w r space text d).
  - rewrite (onmessage_no_data_new w r text d) by done. simpl.
    by rewrite <- app_assoc.
Qed.

(** X11, a text that decodes to something that is no dictionary (a list, a
    string, a number, null): [onmessage] raises [TypeError] after the log
    line and does nothing else. *)
Theorem not_a_dictionary (w : world) (r : request) (text : string) (v : json) :
  loads text = Some v →
  (∀ d, v ≠ JObj d) →
  onmessage loads dumps socket r text w =
    (inr TypeError, World (spaces w) (trace w ++ [Log DEBUG (onmessage_record r text)])).
Proof.
  intros H1 H2. unfold onmessage, getitem. exec. rewrite H1. exec.
  destruct v; try done. by destruct (H2 members).
Qed.

(** X12, a GET without [resource]: [onmessage] raises [KeyError] for that
    key, after the log line, and writes nothing back. *)
Theorem get_without_resource (w : world) (r : request) (text : string)
    (d : gmap string json) :
  loads text = Some (JObj d) →
  d !! "method" = Some (JStr "GET") →
  d !! "resource" = None →
  onmessage loads dumps socket r text w =
    (inr (KeyError "resource"),
     World (spaces w) (trace w ++ [Log DEBUG (onmessage_record r text)])).
Proof.
  intros H1 H2 H3. unfold onmessage, getitem. exec. rewrite H1. exec.
  rewrite H2. exec. by rewrite H3.
Qed.

(** *** Hooks in sequence *)

(** X13, open then close on a path without a space: the table is as before,
    nobody is written to or closed, and the trace has the log line of the
    new space only. *)
Theorem open_then_close (w : world) (r : request) :
  spaces w !! path r = None →
  onclose r (onopen dumps socket r w).2 =
    (inl (), World (spaces w) (trace w ++ [Log INFO (creating_space (path r))])).
Proof.
  intros Hsp. rewrite (onopen_absent dumps socket w r Hsp). simpl.
  erewrite onclose_present; [|by apply lookup_insert_eq]. simpl.
  unfold closed. rewrite get_other_alone by done. simpl.
  rewrite (proj2 (is_empty_true _)) by (simpl; by rewrite decide_True).
  by rewrite app_nil_r, delete_insert_eq, delete_id.
Qed.

(** X14, a flush that failed is done again in full: when a write of the
    flush of [onopen] raised, the next connection opened on the path, if
    the transport takes its writes, is sent the whole queue, the entries
    that were already written to the first connection included, and joins
    that connection in the space. *)
Theorem failed_flush_sent_again (w : world) (r s r' : request) (space : Space.t)
    (d : json) (e : exn) (q1 q2 : list (request * json)) :
  spaces w !! path r = Some space →
  Space.pending space = q1 ++ (s, d) :: q2 →
  takes dumps socket (trace w) r q1 →
  socket (trace w ++ flushed dumps r q1) r (dumps (notify d)) = Some e →
  path r' = path r →
  let w1 := (onopen dumps socket r w).2 in
  takes dumps socket (trace w1) r' (q1 ++ (s, d) :: q2) →
  onopen dumps socket r' w1 =
    (inl (),
     World (<[path r := Space.Make (Space.path space)
                                   (Space.requests space ++ [r; r']) []]> (spaces w))
           (trace w1 ++ flushed dumps r' (q1 ++ (s, d) :: q2))).
Proof.
  intros Hsp Hpend Hq1 He Hpath w1. subst w1.
  rewrite (onopen_raises dumps socket w r s space d e q1 q2) by done.
  cbn [snd]. intros Htakes.
  erewrite onopen_present;
    [|rewrite Hpath; apply lookup_insert_eq|simpl; by rewrite Hpend].
  simpl. by rewrite Hpath, insert_insert_eq, <- app_assoc, Hpend.
Qed.

(** X21, [onmessage] attaches and detaches nobody: every space of the table
    has afterwards the members it had before, and a space that was not
    there before has none. *)
Theorem onmessage_keeps_members (w : world) (r : request) (text : string)
    (p : string) (space' : Space.t) :
  spaces (onmessage loads dumps socket r text w).2 !! p = Some space' →
  Space.requests space' =
    match spaces w !! p with
    | Some space => Space.requests space
    | None => []
    end.
Proof.
  destruct (onmessage_table w r text) as [-> | [(payload & _ & ->) | (Hnone & ->)]].
  - by intros ->.
  - rewrite lookup_insert. case_decide as Hp.
    + subst p. intros [= <-]. simpl. unfold space_of.
      by destruct (spaces w !! path r).
    + by intros ->.
  - rewrite lookup_insert. case_decide as Hp.
    + subst p. intros [= <-]. by rewrite Hnone.
    + by intros ->.
Qed.

(** *** Invariants of the table, continued *)

Lemma closed_path (space : Space.t) (r : request) :
  Space.path (closed space r) = Space.path space.
Proof. unfold closed. by destruct (Space.get_other space r). Qed.

Lemma closed_requests_elem_of (space : Space.t) (r x : request) :
  x ∈ Space.requests (closed space r) → x ∈ Space.requests space.
Proof.
  unfold closed. destruct (Space.get_other space r) as [o|]; simpl.
  - intros ?%list_remove_elem_of. by eapply list_remove_elem_of.
  - apply list_remove_elem_of.
Qed.

Lemma closed_pending_elem_of (space : Space.t) (r : request) (x : request * json) :
  x ∈ Space.pending (closed space r) → x ∈ Space.pending space.
Proof.
  unfold closed. destruct (Space.get_other space r) as [o|]; simpl;
    rewrite !list_elem_of_filter; tauto.
Qed.

Lemma filed_step (w : world) (c : call) :
  filed w → filed (step loads dumps socket c w).
Proof.
  unfold filed, step. intros Hw. destruct c as [r|r|r text|r]; simpl.
  - by rewrite onhandshake_spaces.
  - destruct (onopen_effect w r) as (space' & -> & Hpath & Hreq & Hok & Hraise).
    assert (Space.path (space_of w r) = path r ∧
            Forall (λ x, path x = path r) (Space.requests (space_of w r)) ∧
            Forall (λ rd, path rd.1 = path r) (Space.pending (space_of w r)))
      as (H1 & H2 & H3).
    { unfold space_of. destruct (spaces w !! path r) as [space|] eqn:Hsp; simpl.
      - by apply (Hw _ _ Hsp).
      - repeat split; constructor. }
    apply map_Forall_insert_2; [|done]. rewrite Hpath, Hreq. repeat split.
    + done.
    + apply Forall_app. split; [done|]. by repeat constructor.
    + destruct (onopen dumps socket r w).1 as [[]|e].
      * rewrite Hok by done. constructor.
      * by destruct (Hraise e eq_refl) as [-> _].
  - assert (Space.path (space_of w r) = path r ∧
            Forall (λ x, path x = path r) (Space.requests (space_of w r)) ∧
            Forall (λ rd, path rd.1 = path r) (Space.pending (space_of w r)))
      as (H1 & H2 & H3).
    { unfold space_of. destruct (spaces w !! path r) as [space|] eqn:Hsp; simpl.
      - by apply (Hw _ _ Hsp).
      - repeat split; constructor. }
    destruct (onmessage_table w r text) as [-> | [(payload & _ & ->) | (_ & ->)]].
    + done.
    + apply map_Forall_insert_2; [|done]. simpl. repeat split; try done.
      apply Forall_app. split; [done|]. by repeat constructor.
    + apply map_Forall_insert_2; [|done]. simpl. repeat split; constructor.
  - destruct (spaces w !! path r) as [space|] eqn:Hsp.
    + rewrite (onclose_present _ _ _ Hsp). simpl.
      destruct (Space.is_empty (closed space r)).
      * by apply map_Forall_delete.
      * apply map_Forall_insert_2; [|done].
        destruct (Hw _ _ Hsp) as (H1 & H2 & H3). rewrite closed_path.
        split; [done|]. rewrite !Forall_forall in *. split.
        -- intros x Hx. by apply H2, (closed_requests_elem_of space r).
        -- intros x Hx. by apply H3, (closed_pending_elem_of space r).
    + by rewrite (onclose_absent _ _ Hsp).
Qed.

(** X15, connections stay on their path: after any sequence of hooks,
    started on the empty table, every space is filed under its own path and
    every member and every sender of a queued entry is a connection of that
    path; no connection gets into the space of another path. *)
Theorem members_on_their_path (cs : list call) :
  filed (run loads dumps socket cs boot).
Proof.
  assert (∀ w, filed w → filed (run loads dumps socket cs w)) as H.
  { induction cs as [|c cs IH]; intros w Hw; [done|].
    rewrite run_cons. by apply IH, filed_step. }
  apply H. unfold filed. apply map_Forall_empty.
Qed.

(** X16, the capacity of a space when admission is in one piece: after any
    sequence of arrivals (a handshake followed at once by the open it
    allows), messages and departures, started on the empty table, no space
    has more than two members. *)
Theorem capacity_when_admission_is_atomic (vs : list visit) :
  bounded (foldl (λ w v, attend loads dumps socket v w) boot vs).
Proof. apply bounded_visits. unfold bounded. apply map_Forall_empty. Qed.

Lemma onopen_returns (w : world) (r : request) :
  (∀ h to text, socket h to text = None) →
  (onopen dumps socket r w).1 = inl ().
Proof.
  intros Hup. destruct (onopen_effect w r) as (space' & _ & _ & _ & _ & Hraise).
  destruct (onopen dumps socket r w).1 as [[]|e]; [done|].
  destruct (Hraise e eq_refl) as (_ & h & text & Hs). by rewrite Hup in Hs.
Qed.

Lemma unmixed_step (w : world) (c : call) :
  (∀ h to text, socket h to text = None) →
  unmixed w → unmixed (step loads dumps socket c w).
Proof.
  unfold unmixed, step. intros Hup Hw. destruct c as [r|r|r text|r]; simpl.
  - by rewrite onhandshake_spaces.
  - destruct (onopen_effect w r) as (space' & -> & _ & _ & Hok & _).
    apply map_Forall_insert_2; [|done]. rewrite Hok by (by apply onopen_returns).
    simpl. lia.
  - destruct (onmessage_table w r text) as [-> | [(payload & Hnone & ->) | (_ & ->)]].
    + done.
    + apply map_Forall_insert_2; [|done]. simpl. intros _ x y Hx Hy.
      apply get_other_None in Hnone. rewrite Forall_forall in Hnone.
      by rewrite (Hnone x Hx), (Hnone y Hy).
    + apply map_Forall_insert_2; [|done]. simpl. lia.
  - destruct (spaces w !! path r) as [space|] eqn:Hsp.
    + rewrite (onclose_present _ _ _ Hsp). simpl.
      destruct (Space.is_empty (closed space r)).
      * by apply map_Forall_delete.
      * apply map_Forall_insert_2; [|done]. intros Hq x y Hx Hy.
        apply (Hw _ _ Hsp); [|by eapply closed_requests_elem_of..].
        destruct (Space.pending (closed space r)) as [|z q] eqn:Hz; [simpl in Hq; lia|].
        assert (z ∈ Space.pending space) as Hin.
        { apply (closed_pending_elem_of space r). rewrite Hz. by left. }
        destruct (Space.pending space); [by apply elem_of_nil in Hin | simpl; lia].
    + by rewrite (onclose_absent _ _ Hsp).
Qed.

(** X17, queue or pair, never both: on a transport that takes every write,
    after any sequence of hooks started on the empty table, a space whose
    queue holds an entry has no two different members. *)
Theorem queue_only_without_peer (cs : list call) :
  (∀ h to text, socket h to text = None) →
  unmixed (run loads dumps socket cs boot).
Proof.
  intros Hup.
  assert (∀ w, unmixed w → unmixed (run loads dumps socket cs w)) as H.
  { induction cs as [|c cs IH]; intros w Hw; [done|].
    rewrite run_cons. by apply IH, unmixed_step. }
  apply H. unfold unmixed. apply map_Forall_empty.
Qed.

End Further.

(** ** [serve_forever] *)

#[local] Arguments String.append _ _ : simpl nomatch.

Lemma string_app_assoc (s1 s2 s3 : string) : (s1 +:+ s2) +:+ s3 = s1 +:+ (s2 +:+ s3).
Proof. induction s1 as [|c s1 IH]; simpl; [done|]. by f_equal. Qed.

Lemma string_app_nil_r (s : string) : s +:+ "" = s.
Proof. induction s as [|c s IH]; simpl; [done|]. by f_equal. Qed.

Lemma string_app_length (s1 s2 : string) :
  String.length (s1 +:+ s2) = String.length s1 + String.length s2.
Proof. induction s1 as [|c s1 IH]; simpl; [done|]. by f_equal. Qed.

Lemma all_chars_app (p : ascii → bool) (s1 s2 : string) :
  all_chars p (s1 +:+ s2) = all_chars p s1 && all_chars p s2.
Proof.
  induction s1 as [|c s1 IH]; simpl; [done|]. by rewrite IH, andb_assoc.
Qed.

Lemma strip_prefix_spec (prefix s rest : string) :
  strip_prefix prefix s = Some rest ↔ s = prefix +:+ rest.
Proof.
  revert s. induction prefix as [|a prefix IH]; intros s; simpl.
  - split; [by intros [= ->] | by intros ->].
  - destruct s as [|b s]; [done|]. case_decide as Hab.
    + subst b. rewrite IH. split; [by intros -> | by intros [= ->]].
    + split; [done | intros [= -> ->]; done].
Qed.

Lemma repeat_class_spec (p : ascii → bool) (min : nat) (max : option nat) (s : string)
    (k : string → bool) :
  repeat_class p min max s k = true ↔
  ∃ rest, matches (Class p min max) s rest ∧ k rest = true.
Proof.
  revert min max. induction s as [|c s IH]; intros min max; simpl.
  - rewrite orb_false_r. split.
    + destruct min; [|done]. intros Hk. exists "". split; [|done].
      exists "". repeat split; simpl; [lia | intros; lia].
    + intros (rest & (pre & Heq & _ & Hmin & _) & Hk).
      destruct pre; [|done]. simpl in *. subst rest. by destruct min; [|lia].
  - rewrite orb_true_iff, !andb_true_iff, negb_true_iff, bool_decide_eq_false, IH.
    split.
    + intros [Hk | [[Hc Hmax] (rest & (pre & -> & Hpre & Hmin & Hle) & Hk)]].
      * destruct min; [|done]. exists (String c s). split; [|done].
        exists "". repeat split; simpl; [lia | intros; lia].
      * exists rest. split; [|done]. exists (String c pre). simpl.
        rewrite Hc, Hpre. repeat split; [lia|].
        intros n ->. destruct n; [done|]. specialize (Hle n eq_refl). lia.
    + intros (rest & (pre & Heq & Hpre & Hmin & Hle) & Hk).
      destruct pre as [|c' pre]; simpl in *.
      * left. subst rest. by destruct min; [|lia].
      * right. injection Heq as <- ->. apply andb_true_iff in Hpre as [Hc Hpre].
        split; [split; [done|]|].
        -- intros ->. specialize (Hle 0 eq_refl). lia.
        -- exists rest. split; [|done]. exists pre. repeat split; [done|lia|].
           intros n Hn. destruct max as [m|]; simplify_eq/=.
           specialize (Hle _ eq_refl). lia.
Qed.

Lemma accepts_spec (r : regex) (s : string) (k : string → bool) :
  accepts r s k = true ↔ ∃ rest, matches r s rest ∧ k rest = true.
Proof.
  revert s k. induction r as [text|r1 IH1 r2 IH2|r1 IH1 r2 IH2|p min max|]; intros s k.
  - simpl. destruct (strip_prefix text s) as [rest|] eqn:Hs.
    + apply strip_prefix_spec in Hs as ->. split.
      * intros Hk. by exists rest.
      * intros (rest' & Heq & Hk). by apply (inj (String.app text)) in Heq as <-.
    + split; [done|]. intros (rest & Heq%strip_prefix_spec & _). congruence.
  - simpl. rewrite orb_true_iff, IH1, IH2. naive_solver.
  - simpl. rewrite IH1. split.
    + intros (mid & H1 & (rest & H2 & Hk)%IH2). eauto.
    + intros (rest & (mid & H1 & H2) & Hk). exists mid. split; [done|].
      apply IH2. eauto.
  - apply repeat_class_spec.
  - simpl. rewrite andb_true_iff, orb_true_iff, !bool_decide_eq_true. naive_solver.
Qed.

(** X18, what the pattern of [serve_forever] lets through: exactly the
    texts TYPE:HOST:PORT with TYPE tcp or tls, a HOST of one or more of the
    characters a-z, 0-9, underscore, hyphen and dot, and a PORT of one to
    five digits, with or without a newline at the very end. *)
Theorem listen_pattern_meaning (s : string) :
  re_match listen_pattern s = true ↔
  ∃ typ host port,
    listen_shape typ host port ∧
    (s = typ +:+ ":" +:+ host +:+ ":" +:+ port
     ∨ s = typ +:+ ":" +:+ host +:+ ":" +:+ port +:+ newline).
Proof.
  unfold re_match. rewrite accepts_spec. unfold listen_shape. simpl. split.
  - intros (rest & (s1 & Htyp & s2 & -> & s3 & (host & -> & Hhost & Hlen & _)
                    & s4 & -> & s5 & (port & -> & Hport & Hlo & Hhi) & -> & Hend) & _).
    specialize (Hhi 5 eq_refl).
    assert (host ≠ "") by (intros ->; simpl in Hlen; lia).
    destruct Htyp as [-> | ->]; [exists "tcp" | exists "tls"]; exists host, port;
      (split; [repeat split; auto; lia|]); destruct Hend as [-> | ->];
      rewrite ?string_app_nil_r; auto.
  - intros (typ & host & port & (Htyp & Hne & Hhost & [Hlo Hhi] & Hport) & Hs).
    assert (1 ≤ String.length host) by (destruct host; [done | simpl; lia]).
    assert (∃ tail, (tail = "" ∨ tail = newline) ∧
                    s = typ +:+ ":" +:+ host +:+ ":" +:+ port +:+ tail)
      as (tail & Htail & ->).
    { destruct Hs as [-> | ->]; [exists "" | exists newline];
        rewrite ?string_app_nil_r; auto. }
    exists tail. split; [|done].
    exists (":" +:+ host +:+ ":" +:+ port +:+ tail).
    split; [destruct Htyp as [-> | ->]; [by left | by right]|].
    eexists; split; [reflexivity|]. eexists; split;
      [exists host; repeat split; [done | done | intros; done]|].
    eexists; split; [reflexivity|]. eexists; split;
      [exists port; repeat split; [done | done | by intros ? [= <-]]|].
    done.
Qed.

Lemma cut_first (p : ascii → bool) (sep : ascii) (before after : string) :
  p sep = false →
  all_chars p before = true →
  cut sep (before +:+ String sep after) = Some (before, after).
Proof.
  intros Hsep. induction before as [|c before IH]; simpl.
  - intros _. by rewrite decide_True.
  - intros [Hc Hbefore]%andb_true_iff.
    rewrite decide_False by (intros ->; congruence). by rewrite IH.
Qed.

Lemma split_listen (typ host rest : string) :
  typ = "tcp" ∨ typ = "tls" →
  all_chars host_char host = true →
  split ":" 2 (typ +:+ ":" +:+ host +:+ ":" +:+ rest) = [typ; host; rest].
Proof.
  intros Htyp Hhost.
  assert (cut ":" (typ +:+ ":" +:+ host +:+ ":" +:+ rest)
          = Some (typ, host +:+ ":" +:+ rest)) as Htyp'.
  { by destruct Htyp as [-> | ->]. }
  assert (cut ":" (host +:+ ":" +:+ rest) = Some (host, rest)) as Hhost'.
  { by apply (cut_first host_char ":" host rest). }
  cbn [split]. by rewrite Htyp', Hhost'.
Qed.

Lemma digit_is_plain (c : ascii) :
  digit c = true →
  space_char c = false ∧ c ≠ "+"%char ∧ c ≠ "-"%char.
Proof.
  destruct c as [[] [] [] [] [] [] [] []]; vm_compute; (discriminate || by repeat split).
Qed.

Lemma rstrip_digits (s tail : string) :
  all_chars digit s = true → s ≠ "" →
  tail = "" ∨ tail = newline →
  rstrip (s +:+ tail) = s.
Proof.
  intros Hs Hne Htail. induction s as [|c s IH]; [done|]. simpl in *.
  apply andb_true_iff in Hs as [Hc Hs]. apply digit_is_plain in Hc as (Hc & _).
  destruct s as [|c' s].
  - simpl. destruct Htail as [-> | ->]; simpl; by rewrite Hc.
  - by rewrite IH.
Qed.

Lemma digits_value_bound (s : string) (acc : Z) :
  all_chars digit s = true →
  (0 ≤ acc)%Z →
  ∃ n, digits_value acc s = Some n ∧
       (acc * 10 ^ Z.of_nat (String.length s) ≤ n
        < (acc + 1) * 10 ^ Z.of_nat (String.length s))%Z.
Proof.
  revert acc. induction s as [|c s IH]; intros acc Hs Hacc; simpl.
  - exists acc. split; [done|]. lia.
  - simpl in Hs. apply andb_true_iff in Hs as [Hc Hs]. rewrite Hc.
    assert (0 ≤ Z.of_nat (nat_of_ascii c - 48) ≤ 9)%Z as Hd.
    { unfold digit, between in Hc. apply andb_true_iff in Hc as [H1 H2].
      apply Nat.leb_le in H1, H2. lia. }
    destruct (IH (10 * acc + Z.of_nat (nat_of_ascii c - 48))%Z Hs) as (n & -> & Hn);
      [lia|].
    exists n. split; [done|].
    rewrite Nat2Z.inj_succ, Z.pow_succ_r by lia.
    assert (0 < 10 ^ Z.of_nat (String.length s))%Z by (apply Z.pow_pos_nonneg; lia).
    nia.
Qed.

Lemma int_port (port tail : string) :
  all_chars digit port = true →
  1 ≤ String.length port ≤ 5 →
  tail = "" ∨ tail = newline →
  ∃ n, int (port +:+ tail) = Some n ∧ int port = Some n ∧ (0 ≤ n < 100000)%Z.
Proof.
  intros Hport [Hlo Hhi] Htail.
  destruct port as [|c port]; [simpl in Hlo; lia|].
  assert (digit c = true) as Hc by (simpl in Hport; by apply andb_true_iff in Hport as [? _]).
  destruct (digit_is_plain c Hc) as (Hsp & Hplus & Hminus).
  destruct (digits_value_bound (String c port) 0 Hport) as (n & Hn & Hbound); [lia|].
  assert (∀ t, t = "" ∨ t = newline → int (String c port +:+ t) = Some n) as Hint.
  { intros t Ht. unfold int.
    assert (lstrip (String c port +:+ t) = String c port +:+ t) as ->
      by (simpl; by rewrite Hsp).
    rewrite rstrip_digits by done.
    destruct c as [[] [] [] [] [] [] [] []]; try done. }
  exists n. repeat split.
  - by apply Hint.
  - rewrite <- (string_app_nil_r (String c port)). apply Hint. by left.
  - lia.
  - assert (10 ^ Z.of_nat (String.length (String c port)) ≤ 10 ^ 5)%Z
      by (apply Z.pow_le_mono_r; lia).
    lia.
Qed.

(** [serve_forever] on a listen option that the pattern lets through. *)
Lemma serve_forever_valid (o : options) (typ host port tail : string) :
  listen_shape typ host port →
  tail = "" ∨ tail = newline →
  listen o = Some (typ +:+ ":" +:+ host +:+ ":" +:+ port +:+ tail) →
  ∃ n, int port = Some n ∧ (0 ≤ n < 100000)%Z ∧
       serve_forever o =
         if bool_decide (typ = "tls") && (unset (certfile o) || unset (keyfile o))
         then inl missing_certfile_or_keyfile
         else inr (Params (host, n) (or_None (paths o)) (or_None (hosts o))
                          (or_None (origins o))
                          (if bool_decide (typ = "tls") then certfile o else None)
                          (if bool_decide (typ = "tls") then keyfile o else None)).
Proof.
  intros Hshape Htail Hlisten.
  pose proof Hshape as (Htyp & Hne & Hhost & Hlen & Hport).
  destruct (int_port port tail Hport Hlen Htail) as (n & Hint & Hint' & Hn).
  exists n. repeat split; [done|lia|lia|].
  unfold serve_forever. rewrite Hlisten.
  rewrite (proj2 (listen_pattern_meaning _)).
  - cbn [negb]. rewrite split_listen by done. by rewrite Hint.
  - exists typ, host, port. split; [done|].
    destruct Htail as [-> | ->]; rewrite ?string_app_nil_r; auto.
Qed.

(** X19, what [serve_forever] starts the transport with: only a listen
    option TYPE:HOST:PORT that the pattern lets through gets that far, the
    host is passed as written and the port as the number its digits spell,
    which is below 100000 and otherwise unchecked; an empty list of paths,
    hosts or origins is passed as no restriction; the certificate and the
    key are passed for tls, where both must be set, and left out for tcp
    even when given. *)
Theorem serve_forever_starts (o : options) (p : params) :
  serve_forever o = inr p →
  ∃ typ host port n,
    listen_shape typ host port ∧
    (listen o = Some (typ +:+ ":" +:+ host +:+ ":" +:+ port)
     ∨ listen o = Some (typ +:+ ":" +:+ host +:+ ":" +:+ port +:+ newline)) ∧
    int port = Some n ∧ (0 ≤ n < 100000)%Z ∧
    hostport p = (host, n) ∧
    only_paths p = or_None (paths o) ∧
    only_hosts p = or_None (hosts o) ∧
    only_origins p = or_None (origins o) ∧
    (typ = "tls" →
     unset (certfile o) = false ∧ unset (keyfile o) = false ∧
     tls_certfile p = certfile o ∧ tls_keyfile p = keyfile o) ∧
    (typ = "tcp" → tls_certfile p = None ∧ tls_keyfile p = None).
Proof.
  intros Hserve.
  destruct (listen o) as [s|] eqn:Hlisten; [|by unfold serve_forever in Hserve; rewrite Hlisten in Hserve].
  destruct (re_match listen_pattern s) eqn:Hmatch;
    [|by unfold serve_forever in Hserve; rewrite Hlisten, Hmatch in Hserve].
  apply listen_pattern_meaning in Hmatch as (typ & host & port & Hshape & Hs).
  assert (∃ tail, (tail = "" ∨ tail = newline) ∧
                  s = typ +:+ ":" +:+ host +:+ ":" +:+ port +:+ tail)
    as (tail & Htail & Hstail).
  { destruct Hs as [-> | ->]; [exists "" | exists newline];
      rewrite ?string_app_nil_r; auto. }
  destruct (serve_forever_valid o typ host port tail Hshape Htail) as (n & Hint & Hn & Heq);
    [by rewrite Hlisten, Hstail|].
  rewrite Heq in Hserve. exists typ, host, port, n.
  split; [done|]. split; [destruct Hs as [-> | ->]; auto|].
  split; [done|]. split; [done|].
  destruct (bool_decide (typ = "tls")) eqn:Htls.
  - apply bool_decide_eq_true in Htls.
    destruct (unset (certfile o)) eqn:Hc; [done|].
    destruct (unset (keyfile o)) eqn:Hk; [done|].
    subst typ. simpl in Hserve. injection Hserve as <-. simpl.
    do 4 (split; [done|]). split; [done | intros H; discriminate H].
  - apply bool_decide_eq_false in Htls. simpl in Hserve. injection Hserve as <-. simpl.
    do 4 (split; [done|]). split; done.
Qed.

(** X20, what [serve_forever] refuses: a listen option the pattern does
    not let through, before anything else is looked at, and then tls
    without a certificate or without a key; the split into three parts and
    the conversion of the port, which come after the pattern, never fail. *)
Theorem serve_forever_refuses (o : options) (e : startup_error) :
  serve_forever o = inl e →
  (e = listen_is_no_string ∧ listen o = None)
  ∨ (∃ s, e = invalid_listen_option s ∧ listen o = Some s ∧
          re_match listen_pattern s = false)
  ∨ (e = missing_certfile_or_keyfile ∧
     (unset (certfile o) = true ∨ unset (keyfile o) = true) ∧
     ∃ host port tail,
       listen_shape "tls" host port ∧ (tail = "" ∨ tail = newline) ∧
       listen o = Some ("tls" +:+ ":" +:+ host +:+ ":" +:+ port +:+ tail)).
Proof.
  intros Hserve.
  destruct (listen o) as [s|] eqn:Hlisten;
    [|unfold serve_forever in Hserve; rewrite Hlisten in Hserve; left; by injection Hserve as <-].
  destruct (re_match listen_pattern s) eqn:Hmatch;
    [|unfold serve_forever in Hserve; rewrite Hlisten, Hmatch in Hserve;
      right; left; exists s; by injection Hserve as <-].
  apply listen_pattern_meaning in Hmatch as (typ & host & port & Hshape & Hs).
  assert (∃ tail, (tail = "" ∨ tail = newline) ∧
                  s = typ +:+ ":" +:+ host +:+ ":" +:+ port +:+ tail)
    as (tail & Htail & Hstail).
  { destruct Hs as [-> | ->]; [exists "" | exists newline];
      rewrite ?string_app_nil_r; auto. }
  destruct (serve_forever_valid o typ host port tail Hshape Htail) as (n & Hint & Hn & Heq);
    [by rewrite Hlisten, Hstail|].
  rewrite Heq in Hserve.
  destruct (bool_decide (typ = "tls")) eqn:Htls; [|done].
  apply bool_decide_eq_true in Htls. subst typ.
  destruct (unset (certfile o) || unset (keyfile o)) eqn:Hun; [|done].
  simpl in Hserve. injection Hserve as <-. right; right.
  apply orb_true_iff in Hun. split; [done|]. split; [done|].
  exists host, port, tail. by rewrite Hstail.
Qed.

(** * The further properties on the examples *)


(** A close on /call/42 leaves the space of /call/7 alone. *)
Lemma hooks_are_local_witness :
  let w := World (<["/call/7" := Space.Make "/call/7" [elsewhere] []]> (table [one; two] [])) [] in
  spaces (step decode encode up (Close one) w) !! "/call/7" = spaces w !! "/call/7".
Proof.
  intros w. apply (hooks_are_local decode encode up w (Close one) "/call/7"). discriminate.
Defined.

(** An offer from the only member is queued; from the second of a pair it
    is written to the first. *)
Lemma notify_relayed_or_queued_witness :
  spaces (onmessage decode encode up one offer_text (World (table [one] []) [])).2
    = <["/call/42" := Space.Make "/call/42" [one] [(one, offer)]]> (table [one] []) ∧
  trace (onmessage decode encode up two offer_text (World (table [one; two] []) [])).2
    = [Log DEBUG (onmessage_record two offer_text);
       SendMessage one (encode (notify offer)) None].
Proof.
  split.
  - destruct (notify_relayed_or_queued decode encode up (World (table [one] []) []) one
                offer_text offer) as (_ & H).
    + eexists. split; [vm_compute; reflexivity|]. split; vm_compute; reflexivity.
    + exact (proj1 H).
  - destruct (notify_relayed_or_queued decode encode up (World (table [one; two] []) []) two
                offer_text offer) as (_ & H).
    + eexists. split; [vm_compute; reflexivity|]. split; vm_compute; reflexivity.
    + exact (proj2 H).
Defined.

(** A NOTIFY without data: dropped when a peer is there, an error when not. *)
Lemma notify_without_data_witness :
  let text := js "{'method': 'NOTIFY'}" in
  onmessage decode encode up two text (World (table [one; two] []) [])
    = (inl (), World (table [one; two] []) [Log DEBUG (onmessage_record two text)]) ∧
  (onmessage decode encode up one text (World (table [one] []) [])).1
    = inr (KeyError "data").
Proof.
  intros text. split.
  - apply (notify_without_data decode encode up (World (table [one; two] []) []) two text
             {[ "method" := JStr "NOTIFY" ]});
      vm_compute; reflexivity.
  - apply (notify_without_data decode encode up (World (table [one] []) []) one text
             {[ "method" := JStr "NOTIFY" ]});
      vm_compute; reflexivity.
Defined.

(** A JSON list is no dictionary. *)
Lemma not_a_dictionary_witness :
  onmessage decode_more encode up one "[1, 2]" (World (table [one] []) [])
    = (inr TypeError,
       World (table [one] []) [Log DEBUG (onmessage_record one "[1, 2]")]).
Proof.
  apply (not_a_dictionary decode_more encode up (World (table [one] []) []) one "[1, 2]"
           (JArr [JNum 1; JNum 2])).
  - vm_compute. reflexivity.
  - discriminate.
Defined.

(** A GET that names no resource. *)
Lemma get_without_resource_witness :
  let text := js "{'method': 'GET'}" in
  onmessage decode_more encode up one text (World (table [one] []) [])
    = (inr (KeyError "resource"),
       World (table [one] []) [Log DEBUG (onmessage_record one text)]).
Proof.
  intros text.
  apply (get_without_resource decode_more encode up (World (table [one] []) []) one text
           {[ "method" := JStr "GET" ]}); vm_compute; reflexivity.
Defined.

(** A connection comes and goes on an empty table. *)
Lemma open_then_close_witness :
  onclose one (onopen encode up one boot).2
    = (inl (), World ∅ [Log INFO (creating_space "/call/42")]).
Proof. apply (open_then_close encode up boot one). reflexivity. Defined.

(** The second connection breaks after one write of a queue of two; the
    third one is then sent both entries. *)
Lemma failed_flush_sent_again_witness :
  let w := World (table [one] [(one, offer); (one, candidate)]) [] in
  let w1 := (onopen encode (breaks two 1) two w).2 in
  onopen encode (breaks two 1) three w1 =
    (inl (),
     World (<["/call/42" := Space.Make "/call/42" [one; two; three] []]> (spaces w))
           (trace w1 ++ [SendMessage three (encode (notify offer)) None;
                         SendMessage three (encode (notify candidate)) None])).
Proof.
  intros w w1.
  apply (failed_flush_sent_again encode (breaks two 1) w two one three
           (Space.Make "/call/42" [one] [(one, offer); (one, candidate)])
           candidate (SocketError 32) [(one, offer)] []).
  - reflexivity.
  - reflexivity.
  - intros [|i] x Hx; [vm_compute; reflexivity | discriminate].
  - vm_compute. reflexivity.
  - reflexivity.
  - intros i x Hx. vm_compute. reflexivity.
Defined.

(** The first connection has queued an offer: the queue holds something,
    and the space has one member only. *)
Lemma queue_only_without_peer_witness :
  let w := run decode encode up [Handshake one; Open one; Message one offer_text] boot in
  spaces w !! "/call/42" = Some (Space.Make "/call/42" [one] [(one, offer)]) ∧
  1 ≤ length [(one, offer)] ∧
  ∀ x y, x ∈ [one] → y ∈ [one] → x = y.
Proof.
  intros w.
  assert (spaces w !! "/call/42" = Some (Space.Make "/call/42" [one] [(one, offer)]))
    as Hsp by (vm_compute; reflexivity).
  split; [exact Hsp|]. split; [simpl; lia|].
  apply (queue_only_without_peer decode encode up
           [Handshake one; Open one; Message one offer_text]
           (λ _ _ _, eq_refl) "/call/42" _ Hsp).
  simpl. lia.
Defined.

(** tls on port 99999, with both files, is started. *)
Lemma serve_forever_starts_witness :
  ∃ typ host port n,
    listen_shape typ host port ∧ int port = Some n ∧
    hostport (Params ("0.0.0.0", 99999%Z) None (Some ["myserver.com"]) None
                     (Some "cert.pem") (Some "key.pem")) = (host, n).
Proof.
  destruct (serve_forever_starts
              (Options (Some "tls:0.0.0.0:99999") (Some "cert.pem") (Some "key.pem")
                       [] ["myserver.com"] [])
              (Params ("0.0.0.0", 99999%Z) None (Some ["myserver.com"]) None
                      (Some "cert.pem") (Some "key.pem")))
    as (typ & host & port & n & H1 & _ & H3 & _ & H5 & _).
  - vm_compute. reflexivity.
  - exists typ, host, port, n. split; [exact H1|]. split; [exact H3 | exact H5].
Defined.

(** tls without a key is refused, and so is a host in capitals. *)
Lemma serve_forever_refuses_witness :
  serve_forever (Options (Some "tls:0.0.0.0:443") (Some "cert.pem") None [] [] [])
    = inl missing_certfile_or_keyfile ∧
  (unset (Some "cert.pem") = true ∨ unset None = true).
Proof.
  destruct (serve_forever_refuses
              (Options (Some "tls:0.0.0.0:443") (Some "cert.pem") None [] [] [])
              missing_certfile_or_keyfile) as [[H _] | [(s & H & _) | (_ & H & _)]].
  - vm_compute. reflexivity.
  - discriminate H.
  - discriminate H.
  - split; [vm_compute; reflexivity | exact H].
Defined.

(** The space of the example keeps its member through a message. *)
Lemma onmessage_keeps_members_witness :
  spaces (onmessage decode encode up one offer_text (World (table [one] []) [])).2
    !! "/call/42" = Some (Space.Make "/call/42" [one] [(one, offer)]) ∧
  Space.requests (Space.Make "/call/42" [one] [(one, offer)]) =
    match table [one] [] !! "/call/42" with
    | Some space => Space.requests space
    | None => []
    end.
Proof.
  assert (spaces (onmessage decode encode up one offer_text (World (table [one] []) [])).2
            !! "/call/42" = Some (Space.Make "/call/42" [one] [(one, offer)])) as H
    by (vm_compute; reflexivity).
  split; [exact H|].
  exact (onmessage_keeps_members decode encode up (World (table [one] []) []) one
           offer_text "/call/42" _ H).
Defined.

(** * [onclose] and the [close] of the transport *)

Lemma flat_lookup (m : memory) (p : string) :
  spaces (flat m) !! p = names m !! p ≫= λ l, objects m !! l.
Proof. simpl. apply lookup_omap. Qed.

Lemma fetch_owned (m : memory) (p : string) (l : nat) :
  owned m p l → spaces (flat m) !! p = Some (fetch l m).
Proof.
  intros (Hp & [s Hs] & _). rewrite flat_lookup, Hp. simpl.
  unfold fetch. by rewrite Hs.
Qed.

Lemma owned_mutate (m : memory) (p : string) (l : nat) (f : Space.t → Space.t) :
  owned m p l → owned (mutate l f m) p l.
Proof.
  intros (Hp & Hs & Hown). repeat split; simpl; [done| |done].
  rewrite lookup_insert_eq. eauto.
Qed.

Lemma fetch_mutate (m : memory) (l : nat) (f : Space.t → Space.t) :
  fetch l (mutate l f m) = f (fetch l m).
Proof. unfold fetch at 1. simpl. by rewrite lookup_insert_eq. Qed.

Lemma flat_mutate (m : memory) (p : string) (l : nat) (f : Space.t → Space.t) :
  owned m p l →
  flat (mutate l f m) = World (<[p := f (fetch l m)]> (spaces (flat m))) (trace (flat m)).
Proof.
  intros (Hp & Hs & Hown). unfold flat. simpl. f_equal.
  apply map_eq. intros p'. rewrite lookup_omap, lookup_insert, lookup_omap.
  case_decide as Hpp.
  - subst p'. rewrite Hp. simpl. by rewrite lookup_insert_eq.
  - destruct (names m !! p') as [l'|] eqn:Hp'; simpl; [|done].
    rewrite lookup_insert_ne; [done|]. intros <-. by destruct Hpp; rewrite (Hown p').
Qed.

(** On a transport whose [close] returns at once, [onclose_on] does to the
    memory what [onclose] does to the table the memory stands for. *)
Lemma onclose_on_quiet (m : memory) (r : request) :
  (∀ l, names m !! path r = Some l → owned m (path r) l) →
  (onclose_on quiet_close r m).1 = (onclose r (flat m)).1 ∧
  flat (onclose_on quiet_close r m).2 = (onclose r (flat m)).2.
Proof.
  intros Hown. unfold onclose_on.
  destruct (names m !! path r) as [l|] eqn:Hp.
  - specialize (Hown l eq_refl).
    rewrite (onclose_present _ _ _ (fetch_owned m (path r) l Hown)). simpl.
    unfold closed.
    pose proof (owned_mutate m (path r) l (λ self, Space.remove self r) Hown) as Hown1.
    destruct (Space.get_other (fetch l m) r) as [o|]; simpl.
    + pose proof (owned_mutate _ (path r) l (λ self, Space.remove self o) Hown1) as Hown2.
      unfold quiet_close.
      assert (fetch l (record_event (CloseConn o)
                (mutate l (λ self, Space.remove self o)
                   (mutate l (λ self, Space.remove self r) m)))
              = Space.remove (Space.remove (fetch l m) r) o) as ->.
      { unfold fetch at 1. simpl. rewrite lookup_insert_eq. simpl.
        by rewrite fetch_mutate. }
      destruct (Space.is_empty _); simpl.
      * rewrite Hp. simpl. split; [done|].
        unfold flat. simpl. f_equal.
        apply map_eq. intros p'. rewrite lookup_omap, !lookup_delete, lookup_omap.
        case_decide as Hpp; [done|].
        destruct Hown as (_ & _ & Hown).
        destruct (names m !! p') as [l'|] eqn:Hp'; simpl; [|done].
        rewrite !lookup_insert_ne; [done|intros <-..]; by destruct Hpp; rewrite (Hown p').
      * split; [done|]. unfold flat. simpl. f_equal.
        apply map_eq. intros p'. rewrite lookup_omap, lookup_insert, lookup_omap.
        destruct Hown as (_ & _ & Hown). case_decide as Hpp.
        -- subst p'. rewrite Hp. simpl. rewrite lookup_insert_eq.
           by rewrite fetch_mutate.
        -- destruct (names m !! p') as [l'|] eqn:Hp'; simpl; [|done].
           rewrite !lookup_insert_ne; [done|intros <-..]; by destruct Hpp; rewrite (Hown p').
    + rewrite fetch_mutate, app_nil_r. destruct (Space.is_empty _); simpl.
      * rewrite Hp. simpl. split; [done|].
        unfold flat. simpl. f_equal.
        apply map_eq. intros p'. rewrite lookup_omap, !lookup_delete, lookup_omap.
        case_decide as Hpp; [done|].
        destruct Hown as (_ & _ & Hown).
        destruct (names m !! p') as [l'|] eqn:Hp'; simpl; [|done].
        rewrite !lookup_insert_ne; [done|intros <-..]; by destruct Hpp; rewrite (Hown p').
      * split; [done|]. by rewrite (flat_mutate m (path r) l).
  - split; rewrite onclose_absent; try done; by rewrite flat_lookup, Hp.
Qed.

Lemma pair_detached (space : Space.t) (r o : request) :
  o ≠ r →
  Space.requests space = [r; o] ∨ Space.requests space = [o; r] →
  Space.get_other space r = Some o ∧
  Space.requests (Space.remove (Space.remove space r) o) = [].
Proof.
  intros Hne Hreq. destruct (closed_pair space r o Hne Hreq) as [Ho Hcl].
  split; [done|]. unfold closed in Hcl. by rewrite Ho in Hcl.
Qed.

(** C9, the close hook run from inside [close]: one of a pair closes, and
    the transport runs the close hook of the peer before [close] returns.
    That hook, the second [onclose] of the cascade, finds the space without
    members and deletes it, so the [del] of the first hook, which comes
    after [close], finds no entry and raises [KeyError]: the space is
    deleted twice.  On a [close] that returns at once the same [onclose]
    returns normally. *)
Theorem reentrant_close_deletes_twice (depth : nat) :
  names paired !! "/call/42" = Some 0 ∧
  Space.requests (fetch 0 paired) = [one; two] ∧
  onclose_on quiet_close one paired =
    (inl (),
     Memory {[ 0 := Space.Make "/call/42" [] [] ]} ∅ [CloseConn two]) ∧
  reentrant_close (S depth) two
      (mutate 0 (λ self, Space.remove self two)
         (mutate 0 (λ self, Space.remove self one) paired)) =
    (inl (),
     Memory {[ 0 := Space.Make "/call/42" [] [] ]} ∅ [CloseConn two]) ∧
  onclose_on (reentrant_close (S depth)) one paired =
    (inr (KeyError "/call/42"),
     Memory {[ 0 := Space.Make "/call/42" [] [] ]} ∅ [CloseConn two]).
Proof. repeat split; by vm_compute. Qed.

(** X6, [close] raises: when one of a pair closes and the [close] of the
    peer raises, [onclose] raises the same exception; by then both are out
    of the space, and the space, now without members, stays in the table,
    the [del] being skipped. *)
Theorem close_error_leaves_empty_space (m : memory) (r o : request) (l : nat) (e : exn) :
  names m !! path r = Some l →
  o ≠ r →
  Space.requests (fetch l m) = [r; o] ∨ Space.requests (fetch l m) = [o; r] →
  let out := onclose_on (broken_close e) r m in
  out.1 = inr e ∧
  names out.2 = names m ∧
  Space.requests (fetch l out.2) = [] ∧
  events out.2 = events m ++ [CloseConn o].
Proof.
  intros Hp Hne Hreq. destruct (pair_detached _ r o Hne Hreq) as [Ho Hcl].
  unfold onclose_on. rewrite Hp, Ho. simpl. repeat split.
  unfold fetch at 1. simpl. rewrite lookup_insert_eq. simpl.
  by rewrite fetch_mutate.
Qed.

Lemma close_error_leaves_empty_space_witness :
  let out := onclose_on (broken_close (SocketError 9)) one paired in
  out.1 = inr (SocketError 9) ∧
  names out.2 !! "/call/42" = Some 0 ∧
  Space.requests (fetch 0 out.2) = [] ∧
  events out.2 = [CloseConn two].
Proof.
  intros out. subst out.
  destruct (close_error_leaves_empty_space paired one two 0 (SocketError 9))
    as (H1 & H2 & H3 & H4).
  - reflexivity.
  - discriminate.
  - left. reflexivity.
  - split; [exact H1|]. split; [by rewrite H2|]. split; [exact H3 | exact H4].
Defined.
